(** * mdCSV: Markdown pipe tables and delimited text

    A shallow embedding of the table core of [mdCSV.py]: the
    [MarkdownTable] value with [to_markdown], the parser
    [parse_pipe_table] / [find_tables], and the helpers
    [_escape_csv], [_parse_delimited], [_header_matches] together with
    the data flow of [App.paste_rows].

    A Python [str] is a sequence of Unicode code points; it is embedded as
    a list of numbers, so that [len] is [length] and every built-in used
    by the program ([strip], [split], [splitlines], [ljust], ...) is a
    list function. *)

From Stdlib Require Import String Ascii List NArith Arith Bool Lia Sorted.
From Stdlib Require Import DecimalString.
Import ListNotations.

(** ** Python strings *)

Module Py.

Definition char := N.
Definition str := list char.

(** A literal of the source, written as a Rocq string. *)
Definition lit (s : string) : str := map N_of_ascii (list_ascii_of_string s).

Definition LF : char := 10%N.
Definition CR : char := 13%N.
Definition SPACE : char := 32%N.
Definition DQUOTE : char := 34%N.
Definition COMMA : char := 44%N.
Definition DASH : char := 45%N.
Definition COLON : char := 58%N.
Definition PIPE : char := 124%N.
Definition TAB : char := 9%N.

Definition between (lo hi c : N) : bool := (lo <=? c)%N && (c <=? hi)%N.

(** [str.isspace] on one code point: the set [str.strip()] removes. *)
Definition is_space (c : char) : bool :=
  between 9 13 c || between 28 32 c || (c =? 133)%N || (c =? 160)%N
  || (c =? 5760)%N || between 8192 8202 c || (c =? 8232)%N || (c =? 8233)%N
  || (c =? 8239)%N || (c =? 8287)%N || (c =? 12288)%N.

(** The line boundaries of [str.splitlines()]. *)
Definition is_linebreak (c : char) : bool :=
  between 10 13 c || between 28 30 c || (c =? 133)%N
  || (c =? 8232)%N || (c =? 8233)%N.

Fixpoint drop_while (p : char -> bool) (s : str) : str :=
  match s with
  | [] => []
  | c :: s' => if p c then drop_while p s' else s
  end.

Fixpoint take_while (p : char -> bool) (s : str) : str :=
  match s with
  | [] => []
  | c :: s' => if p c then c :: take_while p s' else []
  end.

Definition lstrip (s : str) : str := drop_while is_space s.
Definition rstrip (s : str) : str := rev (drop_while is_space (rev s)).
Definition strip (s : str) : str := lstrip (rstrip s).

(** [s.rstrip("\n")] *)
Definition rstrip_nl (s : str) : str :=
  rev (drop_while (fun c => (c =? LF)%N) (rev s)).

(** [s.startswith(c)] and [s.endswith(c)] for a one-character [c]. *)
Definition startswith (c : char) (s : str) : bool :=
  match s with
  | x :: _ => (x =? c)%N
  | [] => false
  end.

Definition endswith (c : char) (s : str) : bool := startswith c (rev s).

(** [c in s] for a one-character [c]. *)
Definition contains (c : char) (s : str) : bool :=
  existsb (fun x => (x =? c)%N) s.

(** [s.split(sep)] for a one-character separator: never the empty list. *)
Fixpoint split (sep : char) (s : str) : list str :=
  match s with
  | [] => [[]]
  | c :: s' =>
      if (c =? sep)%N then [] :: split sep s'
      else match split sep s' with
           | p :: ps => (c :: p) :: ps
           | [] => [[c]]
           end
  end.

(** [sep.join(parts)] *)
Fixpoint join (sep : str) (parts : list str) : str :=
  match parts with
  | [] => []
  | p :: ps =>
      match ps with
      | [] => p
      | _ :: _ => p ++ sep ++ join sep ps
      end
  end.

(** [s.ljust(w)]: padded with spaces on the right up to [w] code points. *)
Definition ljust (s : str) (w : nat) : str :=
  s ++ repeat SPACE (w - length s).

(** [s.splitlines()]: a carriage return followed by a line feed is one
    boundary, and a boundary at the very end opens no further line. *)
Fixpoint splitlines (s : str) : list str :=
  match s with
  | [] => []
  | c :: s' =>
      if is_linebreak c then
        [] :: match s' with
              | d :: s'' =>
                  if (c =? CR)%N && (d =? LF)%N then splitlines s''
                  else splitlines s'
              | [] => splitlines s'
              end
      else match splitlines s' with
           | l :: ls => (c :: l) :: ls
           | [] => [[c]]
           end
  end.

(** [s.replace(c, c + c)] for a one-character [c]. *)
Definition double_char (c : char) (s : str) : str :=
  flat_map (fun x => if (x =? c)%N then [x; x] else [x]) s.

End Py.

Import Py.

(** ** The table model: [class MarkdownTable] *)

(** The alignment tags ["left"], ["right"] and ["center"]. *)
Inductive align : Type := a_left | a_right | a_center.

Record MarkdownTable : Type := mkTable {
  header : list str;
  aligns : list align;
  rows : list (list str)
}.

(** [cells[i]] when [i < len(cells)], the empty string otherwise. *)
Definition cell_at (cells : list str) (i : nat) : str := nth i cells [].

(** The cells of a row at the indices of [range(cols)]: the list that
    [paste_rows] and [load_table_into_grid] build for a row, and the cells
    that the loops of [to_markdown] read; the row cut, or filled with empty
    strings, to [cols] cells. *)
Definition canon_row (cols : nat) (r : list str) : list str :=
  map (cell_at r) (seq 0 cols).

(** One pass of the inner loop of [to_markdown] over a row:
    [widths[i] = max(widths[i], len(cell))] for every [i] in [range(cols)]. *)
Definition widen (cols : nat) (widths : list nat) (r : list str) : list nat :=
  map (fun i => Nat.max (nth i widths 0) (length (cell_at r i))) (seq 0 cols).

Definition col_widths (t : MarkdownTable) : list nat :=
  fold_left (widen (length (header t))) (rows t) (map (@length char) (header t)).

Definition fmt_cell (widths : list nat) (cells : list str) (i : nat) : str :=
  [SPACE] ++ ljust (cell_at cells i) (nth i widths 0) ++ [SPACE].

Definition fmt_row (cols : nat) (widths : list nat) (cells : list str) : str :=
  [PIPE] ++ join [PIPE] (map (fmt_cell widths cells) (seq 0 cols)) ++ [PIPE].

Definition fmt_align (al : list align) (widths : list nat) (i : nat) : str :=
  match nth i al a_left with
  | a_left => [COLON] ++ repeat DASH (nth i widths 0 + 1)
  | a_right => repeat DASH (nth i widths 0 + 1) ++ [COLON]
  | a_center => [COLON] ++ repeat DASH (nth i widths 0) ++ [COLON]
  end.

Definition fmt_sep (cols : nat) (al : list align) (widths : list nat) : str :=
  [PIPE] ++ join [PIPE] (map (fmt_align al widths) (seq 0 cols)) ++ [PIPE].

(** The list [md] of [to_markdown], before it is joined. *)
Definition md_lines (t : MarkdownTable) : list str :=
  let cols := length (header t) in
  let widths := col_widths t in
  fmt_row cols widths (header t)
  :: fmt_sep cols (aligns t) widths
  :: map (fmt_row cols widths) (rows t).

Definition to_markdown (t : MarkdownTable) : str := join [LF] (md_lines t).

(** ** The parser *)

(** The test of the collecting loop: [ln] holds a pipe and [ln.strip()] is
    not the empty string. *)
Definition is_table_line (ln : str) : bool :=
  contains PIPE ln && negb (match strip ln with [] => true | _ :: _ => false end).

(** The collecting loop of [parse_pipe_table], run on [lines[start:]]. *)
Fixpoint collect (ls : list str) : list str :=
  match ls with
  | [] => []
  | l :: ls' =>
      let ln := rstrip_nl l in
      if is_table_line ln then ln :: collect ls' else []
  end.

Definition split_row (s : str) : list str :=
  let s := strip s in
  let s := if startswith PIPE s then tl s else s in
  let s := if endswith PIPE s then removelast s else s in
  map strip (split PIPE s).

Definition drop_opt (c : char) (s : str) : str :=
  if startswith c s then tl s else s.

(** [re.match(r"^:?-{2,}:?$", seg)]: without [re.MULTILINE], [$] matches at
    the end of the string and also just before a line feed that ends it. *)
Definition re_separator (seg : str) : bool :=
  let s1 := drop_opt COLON seg in
  let dashes := take_while (fun c => (c =? DASH)%N) s1 in
  let s2 := drop_opt COLON (drop_while (fun c => (c =? DASH)%N) s1) in
  (2 <=? length dashes)
  && match s2 with
     | [] => true
     | [c] => (c =? LF)%N
     | _ => false
     end.

Definition align_of (seg : str) : align :=
  let seg := strip seg in
  let l := startswith COLON seg in
  let r := endswith COLON seg in
  if l && r then a_center
  else if r then a_right
  else a_left.

Definition parse_pipe_table (lines : list str) (start_index : nat)
  : option MarkdownTable * nat :=
  let table_lines := collect (skipn start_index lines) in
  let i := start_index + length table_lines in
  if length table_lines <? 2 then (None, start_index)
  else
    let header := split_row (nth 0 table_lines []) in
    let separator := split_row (nth 1 table_lines []) in
    if negb (forallb re_separator separator) then (None, start_index)
    else
      (Some (mkTable header (map align_of separator)
                     (map split_row (skipn 2 table_lines))), i).

(** A region of [find_tables]: start line, exclusive end line, table. *)
Definition region : Type := (nat * nat * MarkdownTable)%type.

(** The scanning loop of [find_tables] from line [i]; every turn moves [i]
    forward, so [fuel = len(lines)] turns are enough. *)
Fixpoint scan (fuel : nat) (lines : list str) (i : nat) : list region :=
  match fuel with
  | O => []
  | S fuel' =>
      if i <? length lines then
        match parse_pipe_table lines i with
        | (Some t, j) => (i, j, t) :: scan fuel' lines j
        | (None, _) => scan fuel' lines (i + 1)
        end
      else []
  end.

Definition find_tables_lines (lines : list str) : list region :=
  scan (length lines) lines 0.

Definition find_tables (md_text : str) : list region :=
  find_tables_lines (splitlines md_text).

(** ** Delimited text *)

Definition _escape_csv (s : str) : str :=
  if existsb (fun ch => contains ch s) [COMMA; DQUOTE; LF; CR]
  then [DQUOTE] ++ double_char DQUOTE s ++ [DQUOTE]
  else s.

(** *** [csv.reader]

    The reader of the interpreter's [csv] module, for the dialect that
    [_parse_delimited] fixes: the given delimiter and otherwise the
    defaults (the double quote as quote character, doubled, no escape character,
    minimal quoting, no skipping of initial spaces, not strict).  It is a
    state machine fed one character at a time, and [EOL] after each item
    of the iterable it reads (as in CPython 3.11 and later, where a line
    may hold any character). *)

Module Csv.

Inductive ParserState : Type :=
| START_RECORD | START_FIELD | IN_FIELD | IN_QUOTED_FIELD
| QUOTE_IN_QUOTED_FIELD | EAT_CRNL.

Inductive sym : Type := Chr (c : char) | EOL.

Record ReaderObj : Type := mkReader {
  state : ParserState;
  fields : list str;
  field : str
}.

(** [csv.field_size_limit()], which the program never changes. *)
Definition field_limit : N := 131072%N.

Definition set_state (r : ReaderObj) (s : ParserState) : ReaderObj :=
  mkReader s (fields r) (field r).

Definition parse_save_field (r : ReaderObj) : ReaderObj :=
  mkReader (state r) (fields r ++ [field r]) [].

(** [None] stands for the exception "field larger than field limit". *)
Definition parse_add_char (r : ReaderObj) (c : char) : option ReaderObj :=
  if (field_limit <=? N.of_nat (length (field r)))%N then None
  else Some (mkReader (state r) (fields r) (field r ++ [c])).

Definition is_nl (c : char) : bool := (c =? LF)%N || (c =? CR)%N.

Definition end_of_line (r : ReaderObj) (c : sym) : ReaderObj :=
  set_state (parse_save_field r)
            (match c with EOL => START_RECORD | Chr _ => EAT_CRNL end).

Definition start_field (delimiter : char) (r : ReaderObj) (c : sym)
  : option ReaderObj :=
  match c with
  | EOL => Some (end_of_line r c)
  | Chr x =>
      if is_nl x then Some (end_of_line r c)
      else if (x =? DQUOTE)%N then Some (set_state r IN_QUOTED_FIELD)
      else if (x =? delimiter)%N then Some (parse_save_field r)
      else option_map (fun r' => set_state r' IN_FIELD) (parse_add_char r x)
  end.

(** [None] stands for a raised [csv.Error]. *)
Definition parse_process_char (delimiter : char) (r : ReaderObj) (c : sym)
  : option ReaderObj :=
  match state r with
  | START_RECORD =>
      match c with
      | EOL => Some r
      | Chr x =>
          if is_nl x then Some (set_state r EAT_CRNL)
          else start_field delimiter (set_state r START_FIELD) c
      end
  | START_FIELD => start_field delimiter r c
  | IN_FIELD =>
      match c with
      | EOL => Some (end_of_line r c)
      | Chr x =>
          if is_nl x then Some (end_of_line r c)
          else if (x =? delimiter)%N
               then Some (set_state (parse_save_field r) START_FIELD)
          else parse_add_char r x
      end
  | IN_QUOTED_FIELD =>
      match c with
      | EOL => Some r
      | Chr x =>
          if (x =? DQUOTE)%N then Some (set_state r QUOTE_IN_QUOTED_FIELD)
          else parse_add_char r x
      end
  | QUOTE_IN_QUOTED_FIELD =>
      match c with
      | EOL => Some (end_of_line r c)
      | Chr x =>
          if (x =? DQUOTE)%N
          then option_map (fun r' => set_state r' IN_QUOTED_FIELD)
                          (parse_add_char r x)
          else if (x =? delimiter)%N
               then Some (set_state (parse_save_field r) START_FIELD)
          else if is_nl x then Some (end_of_line r c)
          else option_map (fun r' => set_state r' IN_FIELD)
                          (parse_add_char r x)
      end
  | EAT_CRNL =>
      match c with
      | EOL => Some (set_state r START_RECORD)
      | Chr x => if is_nl x then Some r else None
      end
  end.

Fixpoint feed (delimiter : char) (r : ReaderObj) (line : str)
  : option ReaderObj :=
  match line with
  | [] => Some r
  | c :: line' =>
      match parse_process_char delimiter r (Chr c) with
      | Some r' => feed delimiter r' line'
      | None => None
      end
  end.

(** [parse_reset] *)
Definition reset : ReaderObj := mkReader START_RECORD [] [].

(** All the records the reader yields on the remaining [lines], [r] being
    the state inside the record under way.  A record ends when the state
    after an [EOL] is [START_RECORD]; at the end of the input a record
    under way is yielded if a field has been started. *)
Fixpoint records (delimiter : char) (r : ReaderObj) (lines : list str)
  : option (list (list str)) :=
  match lines with
  | [] =>
      match field r, state r with
      | _ :: _, _ | _, IN_QUOTED_FIELD => Some [fields (parse_save_field r)]
      | _, _ => Some []
      end
  | line :: lines' =>
      match feed delimiter r line with
      | None => None
      | Some r1 =>
          match parse_process_char delimiter r1 EOL with
          | None => None
          | Some r2 =>
              match state r2 with
              | START_RECORD =>
                  option_map (cons (fields r2)) (records delimiter reset lines')
              | _ => records delimiter r2 lines'
              end
          end
      end
  end.

Definition reader (lines : list str) (delimiter : char)
  : option (list (list str)) :=
  records delimiter reset lines.

End Csv.

Definition _parse_delimited (text : str) (delimiter : char)
  : option (list (list str)) :=
  Csv.reader (splitlines text) delimiter.

(** *** Pasting rows: [App.paste_rows]

    [str.lower] maps case with the interpreter's Unicode tables, which are
    no part of the program: it is a parameter of this section. *)

Section Paste.

Variable str_lower : str -> str.

Fixpoint str_eqb (a b : str) : bool :=
  match a, b with
  | [], [] => true
  | x :: a', y :: b' => (x =? y)%N && str_eqb a' b'
  | _, _ => false
  end.

Fixpoint row_eqb (a b : list str) : bool :=
  match a, b with
  | [], [] => true
  | x :: a', y :: b' => str_eqb x y && row_eqb a' b'
  | _, _ => false
  end.

Definition _header_matches (row headers : list str) : bool :=
  let row_norm := map (fun c => str_lower (strip c)) row in
  let hdr_norm := map (fun c => str_lower (strip c)) headers in
  row_eqb row_norm hdr_norm.

(** The first statements of [paste_rows]: the comma parse, and the tab
    parse in its place when the comma parse has at most one row. *)
Definition sniff_and_parse (text : str) : option (list (list str)) :=
  match _parse_delimited text COMMA with
  | None => None
  | Some rows =>
      if length rows <=? 1 then _parse_delimited text TAB else Some rows
  end.

(** What [paste_rows] reads and writes of the grid widget: the heading
    text of each column and the value lists of the items. *)
Record Tree : Type := mkTree {
  headings : list str;
  items : list (list str)
}.

Inductive paste_result : Type :=
| NotText                          (* clipboard_get raised TclError *)
| Raised                           (* csv.Error left paste_rows *)
| NoData                           (* the parse gave no row *)
| Pasted (tree : Tree) (count : nat).

Definition paste_rows (tree : Tree) (clipboard : option str) : paste_result :=
  match clipboard with
  | None => NotText
  | Some text =>
      match sniff_and_parse text with
      | None => Raised
      | Some rows =>
          match rows with
          | [] => NoData
          | row0 :: _ =>
              let headers := headings tree in
              let start_idx := if _header_matches row0 headers then 1 else 0 in
              let cols := length headers in
              let values := map (canon_row cols) (skipn start_idx rows) in
              Pasted (mkTree headers (items tree ++ values)) (length values)
          end
      end
  end.

End Paste.

(** [str.lower] on a string of ASCII characters. *)
Definition ascii_lower_char (c : char) : char :=
  if between 65 90 c then (c + 32)%N else c.

Definition ascii_lower (s : str) : str := map ascii_lower_char s.

Definition is_ascii (s : str) : Prop := Forall (fun c => (c < 128)%N) s.

(** ** The rest of the table flow

    The functions below are the data flow of the [App] methods around the
    table core; what they read from the widgets is an argument and what
    they write to them is the result. *)

(** [str(n)] for a natural number. *)
Definition str_of_nat (n : nat) : str :=
  lit (NilEmpty.string_of_uint (Nat.to_uint n)).

(** The heading text [h or f"Column {i+1}"] of [rebuild_tree_columns]. *)
Definition heading_text (i : nat) (h : str) : str :=
  match h with
  | [] => lit "Column " ++ str_of_nat (i + 1)
  | _ :: _ => h
  end.

(** The heading texts [rebuild_tree_columns] sets, for [enumerate(headers)]
    counted from [i]. *)
Fixpoint heading_texts (i : nat) (headers : list str) : list str :=
  match headers with
  | [] => []
  | h :: hs => heading_text i h :: heading_texts (S i) hs
  end.

Definition rebuild_tree_columns (headers : list str) : list str :=
  heading_texts 0 headers.

(** [load_table_into_grid]: the headings it sets and the value lists it
    inserts, after it has deleted the items that were there. *)
Definition load_table_into_grid (t : MarkdownTable) : Tree :=
  let cols := length (header t) in
  mkTree (rebuild_tree_columns (header t)) (map (canon_row cols) (rows t)).

(** The label [detect_tables] gives the table at position [idx]. *)
Definition table_label (idx : nat) (t : MarkdownTable) : str :=
  let header_preview :=
    match header t with
    | [] => lit "Table " ++ str_of_nat (idx + 1)
    | _ :: _ => join (lit " | ") (header t)
    end in
  str_of_nat (idx + 1) ++ lit ": " ++ header_preview.

(** The two formats of [_clipboard_copy]. *)
Inductive copy_fmt : Type := fmt_csv | fmt_md.

(** The text [_clipboard_copy] puts on the clipboard for the headings
    [headers] and the value lists [rows]. *)
Definition _clipboard_copy (headers : list str) (rows : list (list str))
                           (fmt : copy_fmt) : str :=
  match fmt with
  | fmt_md =>
      to_markdown (mkTable headers (repeat a_left (length headers)) rows)
  | fmt_csv =>
      join [LF] (join [COMMA] (map _escape_csv headers)
                 :: map (fun r => join [COMMA] (map _escape_csv r)) rows)
  end.

(** [commit_table_to_md] with a table selected: [md] is the text of the
    editor, [(start, end_, old_aligns)] the selected region with the
    alignments of its table, [headers] and [rows] what the grid holds; the
    result is the text put back into the editor. *)
Definition commit_table_to_md (md : str) (start end_ : nat)
    (old_aligns : list align) (headers : list str) (rows : list (list str))
  : str :=
  let new_md_table := to_markdown (mkTable headers old_aligns rows) in
  let lines := splitlines md in
  let md_before := join [LF] (firstn start lines) in
  let md_after := join [LF] (skipn end_ lines) in
  (match md_before with [] => [] | _ :: _ => md_before ++ [LF] end)
  ++ new_md_table
  ++ (match md_after with [] => [] | _ :: _ => [LF] ++ md_after end).

(** ** The preview: [simple_markdown_to_text] *)

Definition STAR : char := 42%N.
Definition BACKTICK : char := 96%N.

(** [s.startswith(p)] for a string [p]. *)
Fixpoint starts_with (p s : str) : bool :=
  match p, s with
  | [], _ => true
  | _ :: _, [] => false
  | x :: p', y :: s' => (x =? y)%N && starts_with p' s'
  end.

(** The lazy group and the closing delimiter of a pattern [d(.+?)d] in the
    text after an opening [d]: the shortest group of one character or more,
    none of them a line feed, that [d] follows; with the text after it. *)
Fixpoint find_close (d s : str) : option (str * str) :=
  match s with
  | [] => None
  | c :: s' =>
      if (c =? LF)%N then None
      else if starts_with d s' then Some ([c], skipn (length d) s')
      else match find_close d s' with
           | Some (g, rest) => Some (c :: g, rest)
           | None => None
           end
  end.

(** [re.sub] of the pattern [d(.+?)d] by [op \1 cl]: matches are taken from
    the left and do not overlap. Every turn consumes a character, so
    [fuel = len(s)] turns are enough. *)
Fixpoint re_sub_from (fuel : nat) (d op cl s : str) : str :=
  match fuel with
  | O => s
  | S fuel' =>
      match s with
      | [] => []
      | c :: s' =>
          match (if starts_with d s then find_close d (skipn (length d) s)
                 else None) with
          | Some (g, rest) => op ++ g ++ cl ++ re_sub_from fuel' d op cl rest
          | None => c :: re_sub_from fuel' d op cl s'
          end
      end
  end.

Definition re_sub (d op cl s : str) : str := re_sub_from (length s) d op cl s.

(** The three substitutions made on a line outside a code fence. *)
Definition preview_inline (line : str) : str :=
  let t := re_sub [STAR; STAR] (lit "[bold]") (lit "[/bold]") line in
  let t := re_sub [STAR] (lit "[italic]") (lit "[/italic]") t in
  re_sub [BACKTICK] (lit "[code]") (lit "[/code]") t.

Definition is_fence (line : str) : bool :=
  starts_with [BACKTICK; BACKTICK; BACKTICK] (strip line).

(** The list [out] of [simple_markdown_to_text] for the lines still to
    read, [in_code] being the flag at that point. *)
Fixpoint preview_lines (in_code : bool) (lines : list str) : list str :=
  match lines with
  | [] => []
  | line :: lines' =>
      if is_fence line then
        (if negb in_code then lit "[code]" else lit "[/code]")
        :: preview_lines (negb in_code) lines'
      else if in_code then line :: preview_lines in_code lines'
      else preview_inline line :: preview_lines in_code lines'
  end.

Definition simple_markdown_to_text (md : str) : str :=
  join [LF] (preview_lines false (splitlines md)).

(** ** Predicates of the statements

    No white space at either end: *)
Definition head_ok (s : str) : bool :=
  match s with
  | [] => true
  | c :: _ => negb (is_space c)
  end.

Definition trimmed (s : str) : bool := head_ok s && head_ok (rev s).

(** No line boundary of [splitlines]: *)
Definition no_break (c : char) : Prop := is_linebreak c = false.

(** The separator pattern as the specification words it: an optional
    leading colon, [n] dashes, an optional trailing colon. *)
Definition opt_colon (b : bool) : str := if b then [COLON] else [].

Definition sep_cell (l : bool) (n : nat) (r : bool) : str :=
  opt_colon l ++ repeat DASH n ++ opt_colon r.

Definition sep_pattern (s : str) : Prop :=
  exists l n r, 2 <= n /\ s = sep_cell l n r.

(** The scenario of the specification: the four-line input, the table it
    is read as, and the text [to_markdown] writes for that table. *)
Definition sample_text : str :=
  join [LF] [lit "| Col A | Col B |"; lit "| :--- | ---: |";
             lit "| one | 1 |"; lit "| two | 2 |"].

Definition sample_table : MarkdownTable :=
  mkTable [lit "Col A"; lit "Col B"] [a_left; a_right]
          [[lit "one"; lit "1"]; [lit "two"; lit "2"]].

Definition sample_canonical : str :=
  join [LF] [lit "| Col A | Col B |"; lit "|:------|------:|";
             lit "| one   | 1     |"; lit "| two   | 2     |"].

(** A line the collecting loop takes, in the words of the specification. *)
Definition pipe_line (ln : str) : Prop := In PIPE ln /\ strip ln <> [].

Definition region_start (r : region) : nat := fst (fst r).
Definition region_end (r : region) : nat := snd (fst r).
Definition region_table (r : region) : MarkdownTable := snd r.

(** A block of lines that is one table from its first line to its last. *)
Definition table_block (ls : list str) (t : MarkdownTable) : Prop :=
  parse_pipe_table ls 0 = (Some t, length ls).

(** A cell as the parser is to return it. *)
Definition cell_ok (c : str) : Prop :=
  trimmed c = true /\ ~ In PIPE c /\ ~ In LF c /\ ~ In CR c
  /\ Forall no_break c.

Definition cells_ok (t : MarkdownTable) : Prop :=
  Forall cell_ok (header t) /\ Forall (Forall cell_ok) (rows t).

(** A region that starts at line [i] or later, spans two lines or more and
    ends within [n] lines. *)
Definition region_within (n i : nat) (r : region) : Prop :=
  i <= region_start r /\ region_start r + 2 <= region_end r /\ region_end r <= n.

(** A table as [to_markdown] reads it: every row and the alignments cut or
    filled to the column count, a missing alignment being [left]. *)
Definition canon (t : MarkdownTable) : MarkdownTable :=
  let cols := length (header t) in
  mkTable (header t)
          (map (fun i => nth i (aligns t) a_left) (seq 0 cols))
          (map (canon_row cols) (rows t)).

(** The cells the row grammar can carry: no white space at either end, no
    pipe, no line boundary. *)
Definition clean_cell (c : str) : bool :=
  trimmed c && forallb (fun x => negb (x =? PIPE)%N && negb (is_linebreak x)) c.

(** The number of dashes [fmt_align] writes for a column of width [w]. *)
Definition dashes (a : align) (w : nat) : nat :=
  match a with
  | a_center => w
  | a_left | a_right => w + 1
  end.

(** The tables whose rendering the parser reads back: a header that is not
    empty, clean cells in the columns that are rendered, and columns wide
    enough for two dashes in the separator. *)
Definition renderable (t : MarkdownTable) : bool :=
  let cols := length (header t) in
  negb (cols =? 0)
  && forallb clean_cell (header t)
  && forallb (fun r => forallb clean_cell (canon_row cols r)) (rows t)
  && forallb (fun i => 2 <=? dashes (nth i (aligns t) a_left)
                                   (nth i (col_widths t) 0))
             (seq 0 cols).

(** The colons [fmt_align] writes for an alignment. *)
Definition colon_left (a : align) : bool :=
  match a with a_right => false | _ => true end.

Definition colon_right (a : align) : bool :=
  match a with a_left => false | _ => true end.

(** The shape of every line [to_markdown] writes. *)
Definition bars (parts : list str) : str :=
  [PIPE] ++ join [PIPE] parts ++ [PIPE].

(** Every character the reader holds satisfies [P]. *)
Definition reader_all (P : char -> Prop) (r : Csv.ReaderObj) : Prop :=
  Forall (Forall P) (Csv.fields r) /\ Forall P (Csv.field r).

(** The round trip as the specification states it: one region, with the
    header, the rows and the alignments of the table that was rendered. *)
Definition round_trips (t : MarkdownTable) : Prop :=
  exists s e t',
    find_tables (to_markdown t) = [(s, e, t')]
    /\ header t' = header t /\ rows t' = rows t /\ aligns t' = aligns t.

(** One cycle of rendering a text's first table again, [None] when the
    text has no table at line 0 (the source then fails on [None]). *)
Definition reparse_render (text : str) : option str :=
  match parse_pipe_table (splitlines text) 0 with
  | (Some t, _) => Some (to_markdown t)
  | (None, _) => None
  end.

Fixpoint cycles (n : nat) (text : str) : option str :=
  match n with
  | O => Some text
  | S n' =>
      match reparse_render text with
      | Some text' => cycles n' text'
      | None => None
      end
  end.

(** The first three conditions of [renderable], and the fourth. *)
Definition clean_table (t : MarkdownTable) : bool :=
  let cols := length (header t) in
  negb (cols =? 0)
  && forallb clean_cell (header t)
  && forallb (fun r => forallb clean_cell (canon_row cols r)) (rows t).

Definition wide_enough (t : MarkdownTable) : bool :=
  forallb (fun i => 2 <=? dashes (nth i (aligns t) a_left)
                                (nth i (col_widths t) 0))
          (seq 0 (length (header t))).

(** A cell that [csv.reader] can read back from the clipboard text: no line
    boundary in it, and no longer than the field limit. *)
Definition csv_cell_ok (c : str) : bool :=
  forallb (fun x => negb (is_linebreak x)) c
  && (N.of_nat (length c) <=? Csv.field_limit)%N.

(** A row of such cells that is not the single empty cell, whose line
    would be the empty line of the empty row. *)
Definition csv_row_ok (r : list str) : Prop :=
  forallb csv_cell_ok r = true /\ r <> [[]].

(** The reader between two fields: nothing in the field under way. *)
Definition fresh (r : Csv.ReaderObj) : Prop :=
  Csv.field r = []
  /\ (Csv.state r = Csv.START_FIELD \/ Csv.state r = Csv.START_RECORD).

(** The reader [r'] after the characters of the cell [c], read from [r]. *)
Definition after_cell (r : Csv.ReaderObj) (c : str) (r' : Csv.ReaderObj) : Prop :=
  Csv.fields r' = Csv.fields r /\ Csv.field r' = c
  /\ (Csv.state r' = Csv.IN_FIELD \/ Csv.state r' = Csv.QUOTE_IN_QUOTED_FIELD
      \/ (c = [] /\ Csv.state r' = Csv.state r)).

(** A character that an unquoted field takes as it is. *)
Definition plain (x : char) : Prop :=
  x <> COMMA /\ x <> DQUOTE /\ x <> LF /\ x <> CR.

(** The line [_clipboard_copy] writes for a row in the CSV format. *)
Definition csv_line (r : list str) : str := join [COMMA] (map _escape_csv r).

(** A character of a line of [splitlines] that is no double quote. *)
Definition ordinary (x : char) : Prop := x <> DQUOTE /\ no_break x.

(** The fields of the line under way, [s] still to read: those saved so
    far, then the fields of [s] with the field under way before the first. *)
Definition fields_after (d : char) (F : list str) (f s : str) : list str :=
  match split d s with
  | p :: ps => F ++ (f ++ p) :: ps
  | [] => F
  end.

(** The row of a line without quotes: no cell for the empty line, the
    parts between the delimiters otherwise. *)
Definition plain_row (d : char) (line : str) : list str :=
  match line with
  | [] => []
  | _ :: _ => split d line
  end.

(** Two characters [x] side by side somewhere in [s]. *)
Fixpoint doubled (x : char) (s : str) : bool :=
  match s with
  | a :: (b :: _) as s' => ((a =? x)%N && (b =? x)%N) || doubled x s'
  | _ => false
  end.

(** * Properties *)

(** ** Facts on the string primitives *)

Section StrFacts.

Lemma forallb_rev (p : char -> bool) (a : str) :
  forallb p (rev a) = forallb p a.
Proof.
  induction a as [|c a IH]; simpl; auto.
  rewrite forallb_app, IH. simpl. rewrite andb_true_r. apply andb_comm.
Qed.

Lemma drop_while_app_all (p : char -> bool) (a s : str) :
  forallb p a = true -> drop_while p (a ++ s) = drop_while p s.
Proof.
  induction a as [|c a IH]; simpl; auto.
  intros H. apply andb_prop in H as [Hc Ha]. now rewrite Hc, IH.
Qed.

Lemma drop_while_all (p : char -> bool) (a : str) :
  forallb p a = true -> drop_while p a = [].
Proof.
  intros H. rewrite <- (app_nil_r a), drop_while_app_all; auto.
Qed.

Lemma drop_while_suffix (p : char -> bool) (s : str) :
  exists a, s = a ++ drop_while p s.
Proof.
  induction s as [|c s [a IH]]; simpl.
  - now exists [].
  - destruct (p c).
    + exists (c :: a). simpl. now f_equal.
    + now exists [].
Qed.

Lemma drop_while_head (p : char -> bool) (s : str) :
  match drop_while p s with
  | [] => True
  | c :: _ => p c = false
  end.
Proof.
  induction s as [|c s IH]; simpl; auto.
  destruct (p c) eqn:E; simpl; auto.
Qed.

Lemma drop_while_stop (p : char -> bool) (c : char) (s : str) :
  p c = false -> drop_while p (c :: s) = c :: s.
Proof. intros H; simpl; now rewrite H. Qed.

Lemma head_ok_drop (s : str) : head_ok (drop_while is_space s) = true.
Proof.
  pose proof (drop_while_head is_space s) as H.
  destruct (drop_while is_space s); simpl; auto. now rewrite H.
Qed.

Lemma drop_head_ok (s : str) : head_ok s = true -> drop_while is_space s = s.
Proof.
  destruct s as [|c s]; simpl; auto.
  intros H. apply negb_true_iff in H. now rewrite H.
Qed.

Lemma head_ok_app (s a : str) : s <> [] -> head_ok (s ++ a) = head_ok s.
Proof. destruct s; simpl; congruence. Qed.

Lemma strip_trimmed (s : str) : trimmed (strip s) = true.
Proof.
  unfold trimmed, strip, lstrip, rstrip.
  rewrite head_ok_drop. simpl.
  set (u := drop_while is_space (rev s)).
  assert (Hu : head_ok u = true) by apply head_ok_drop.
  destruct (drop_while_suffix is_space (rev u)) as [a Ha].
  destruct (drop_while is_space (rev u)) as [|c w] eqn:E; auto.
  apply (f_equal (@rev char)) in Ha. rewrite rev_involutive, rev_app_distr in Ha.
  rewrite Ha in Hu. rewrite head_ok_app in Hu; auto.
  intros H. apply (f_equal (@length char)) in H.
  rewrite length_rev in H. discriminate.
Qed.

Lemma strip_padded (a s b : str) :
  trimmed s = true -> forallb is_space a = true -> forallb is_space b = true ->
  strip (a ++ s ++ b) = s.
Proof.
  unfold trimmed, strip, lstrip, rstrip. intros Hs Ha Hb.
  apply andb_prop in Hs as [H1 H2].
  rewrite !rev_app_distr, <- app_assoc.
  rewrite drop_while_app_all by (now rewrite forallb_rev).
  destruct s as [|c s].
  - simpl. rewrite (drop_while_all is_space (rev a)) by (now rewrite forallb_rev).
    reflexivity.
  - assert (Hne : rev (c :: s) <> []).
    { intros H. apply (f_equal (@length char)) in H.
      rewrite length_rev in H. discriminate. }
    destruct (rev (c :: s)) as [|d r] eqn:E; [congruence|].
    simpl in H2. apply negb_true_iff in H2.
    simpl app. rewrite drop_while_stop by assumption.
    change (d :: r ++ rev a) with ((d :: r) ++ rev a).
    rewrite rev_app_distr, rev_involutive, <- E, rev_involutive.
    rewrite drop_while_app_all by assumption.
    now apply drop_head_ok.
Qed.

Lemma strip_id (s : str) : trimmed s = true -> strip s = s.
Proof.
  intros H. rewrite <- (strip_padded [] s [] H eq_refl eq_refl) at 2.
  now rewrite app_nil_r.
Qed.


Lemma drop_while_Forall (P : char -> Prop) (p : char -> bool) (s : str) :
  Forall P s -> Forall P (drop_while p s).
Proof.
  induction 1 as [|c s Hc Hs IH]; simpl; auto.
  destruct (p c); auto.
Qed.

Lemma strip_Forall (P : char -> Prop) (s : str) :
  Forall P s -> Forall P (strip s).
Proof.
  intros H. unfold strip, lstrip, rstrip.
  apply drop_while_Forall, Forall_rev, drop_while_Forall, Forall_rev, H.
Qed.

End StrFacts.

Section SplitFacts.

Variable sep : char.

Lemma split_not_nil (s : str) : split sep s <> [].
Proof.
  destruct s as [|c s]; simpl; [discriminate|].
  destruct (c =? sep)%N; [discriminate|].
  destruct (split sep s); discriminate.
Qed.

Lemma split_app (p s : str) :
  Forall (fun c => c <> sep) p -> split sep (p ++ sep :: s) = p :: split sep s.
Proof.
  induction 1 as [|c p Hc Hp IH]; simpl.
  - now rewrite N.eqb_refl.
  - apply N.eqb_neq in Hc. now rewrite Hc, IH.
Qed.

Lemma split_nosep (p : str) :
  Forall (fun c => c <> sep) p -> split sep p = [p].
Proof.
  induction 1 as [|c p Hc Hp IH]; simpl; auto.
  apply N.eqb_neq in Hc. now rewrite Hc, IH.
Qed.

Lemma split_join (parts : list str) :
  parts <> [] -> Forall (Forall (fun c => c <> sep)) parts ->
  split sep (join [sep] parts) = parts.
Proof.
  intros Hne H. revert Hne.
  induction H as [|p ps Hp Hps IH]; intros Hne; [now elim Hne|].
  destruct ps as [|q ps].
  - simpl. now apply split_nosep.
  - change (join [sep] (p :: q :: ps)) with (p ++ sep :: join [sep] (q :: ps)).
    rewrite split_app by assumption. f_equal. apply IH. discriminate.
Qed.

Lemma split_cells_nosep (s : str) :
  Forall (Forall (fun c => c <> sep)) (split sep s).
Proof.
  induction s as [|c s IH]; simpl.
  - repeat constructor.
  - destruct (c =? sep)%N eqn:E.
    + constructor; auto.
    + apply N.eqb_neq in E.
      destruct (split sep s) as [|p ps]; [repeat constructor; auto|].
      inversion IH; subst. constructor; auto.
Qed.

Lemma split_Forall (P : char -> Prop) (s : str) :
  Forall P s -> Forall (Forall P) (split sep s).
Proof.
  induction 1 as [|c s Hc Hs IH]; simpl.
  - repeat constructor.
  - destruct (c =? sep)%N.
    + constructor; auto.
    + destruct (split sep s) as [|p ps]; [repeat constructor; auto|].
      inversion IH; subst. constructor; auto.
Qed.

End SplitFacts.

Section LineFacts.

Lemma splitlines_app_lf (l s : str) :
  Forall no_break l -> splitlines (l ++ LF :: s) = l :: splitlines s.
Proof.
  induction 1 as [|c l Hc Hl IH].
  - simpl. destruct s; reflexivity.
  - cbn [app splitlines]. rewrite Hc, IH. reflexivity.
Qed.

Lemma splitlines_line (l : str) :
  Forall no_break l -> l <> [] -> splitlines l = [l].
Proof.
  induction 1 as [|c l Hc Hl IH]; [congruence|].
  intros _. cbn [splitlines]. rewrite Hc.
  destruct l as [|d l]; [reflexivity|].
  rewrite IH by discriminate. reflexivity.
Qed.

Lemma splitlines_join (ls : list str) :
  Forall (Forall no_break) ls -> last ls [] <> [] ->
  splitlines (join [LF] ls) = ls.
Proof.
  induction 1 as [|l ls Hl Hls IH]; simpl; [congruence|].
  destruct ls as [|l' ls].
  - intros Hne. now apply splitlines_line.
  - intros Hne. cbn [app]. rewrite splitlines_app_lf by assumption.
    f_equal. now apply IH.
Qed.

Lemma splitlines_no_break_len (n : nat) (s : str) :
  length s <= n -> Forall (Forall no_break) (splitlines s).
Proof.
  revert s. induction n as [|n IH]; intros [|c s] Hn; simpl in *;
    try constructor; try lia.
  - destruct (is_linebreak c) eqn:E.
    + constructor; [constructor|].
      destruct s as [|d s']; [constructor|].
      destruct ((c =? CR)%N && (d =? LF)%N); apply IH; simpl in *; lia.
    + assert (Hs : Forall (Forall no_break) (splitlines s)) by (apply IH; lia).
      destruct (splitlines s) as [|l ls].
      * repeat constructor; assumption.
      * inversion Hs; subst. repeat constructor; assumption.
Qed.

Lemma splitlines_no_break (s : str) : Forall (Forall no_break) (splitlines s).
Proof. apply (splitlines_no_break_len (length s)); lia. Qed.

End LineFacts.

(** ** The separator pattern and [align_of] *)

Section SeparatorFacts.

Let is_dash (c : char) : bool := (c =? DASH)%N.

Lemma take_drop_while (p : char -> bool) (s : str) :
  s = take_while p s ++ drop_while p s.
Proof.
  induction s as [|c s IH]; simpl; auto.
  destruct (p c); simpl; congruence.
Qed.

Lemma take_while_dash (s : str) :
  take_while is_dash s = repeat DASH (length (take_while is_dash s)).
Proof.
  induction s as [|c s IH]; simpl; auto.
  unfold is_dash at 1 3. destruct (N.eqb_spec c DASH); simpl; congruence.
Qed.

Lemma drop_opt_shape (c : char) (s : str) :
  s = (if startswith c s then [c] else []) ++ drop_opt c s.
Proof.
  unfold drop_opt. destruct s as [|x s]; simpl; auto.
  destruct (N.eqb_spec x c); simpl; congruence.
Qed.

Lemma take_while_dashes (n : nat) (r : bool) :
  take_while is_dash (repeat DASH n ++ opt_colon r) = repeat DASH n.
Proof.
  induction n as [|n IH]; simpl.
  - destruct r; reflexivity.
  - now rewrite IH.
Qed.

Lemma drop_while_dashes (n : nat) (r : bool) :
  drop_while is_dash (repeat DASH n ++ opt_colon r) = opt_colon r.
Proof.
  induction n as [|n IH]; simpl; auto.
  destruct r; reflexivity.
Qed.

Lemma sep_cell_rev (l : bool) (n : nat) (r : bool) :
  rev (sep_cell l n r) = sep_cell r n l.
Proof.
  unfold sep_cell. rewrite !rev_app_distr, rev_repeat, <- app_assoc.
  now destruct l, r.
Qed.

Lemma sep_cell_startswith (l : bool) (n : nat) (r : bool) :
  1 <= n -> startswith COLON (sep_cell l n r) = l.
Proof.
  intros Hn. destruct l; [reflexivity|].
  destruct n as [|n]; [lia|reflexivity].
Qed.

Lemma sep_cell_trimmed (l : bool) (n : nat) (r : bool) :
  1 <= n -> trimmed (sep_cell l n r) = true.
Proof.
  intros Hn. unfold trimmed. rewrite sep_cell_rev.
  assert (H : forall a b, head_ok (sep_cell a n b) = true).
  { intros a b. destruct a; [reflexivity|].
    destruct n as [|n]; [lia|reflexivity]. }
  now rewrite !H.
Qed.

(** What the regular expression accepts: the pattern, and the pattern
    followed by one line feed. *)
Lemma re_separator_shape (seg : str) :
  re_separator seg = true ->
  exists l n r nl, 2 <= n
    /\ seg = sep_cell l n r ++ (if nl : bool then [LF] else []).
Proof.
  unfold re_separator. fold is_dash.
  set (s1 := drop_opt COLON seg).
  set (d := drop_while is_dash s1).
  intros H. apply andb_prop in H as [Hn Hend]. apply Nat.leb_le in Hn.
  exists (startswith COLON seg), (length (take_while is_dash s1)),
         (startswith COLON d).
  assert (Hseg : seg = opt_colon (startswith COLON seg) ++ s1)
    by apply drop_opt_shape.
  assert (Hs1 : s1 = take_while is_dash s1 ++ d) by apply take_drop_while.
  assert (Hd : d = opt_colon (startswith COLON d) ++ drop_opt COLON d)
    by apply drop_opt_shape.
  rewrite take_while_dash in Hs1.
  destruct (drop_opt COLON d) as [|c [|c' t]] eqn:E; try discriminate.
  - exists false. split; [assumption|]. unfold sep_cell.
    rewrite app_nil_r in *. rewrite <- Hd, <- Hs1. exact Hseg.
  - exists true. apply N.eqb_eq in Hend. subst c. split; [assumption|].
    unfold sep_cell. rewrite <- !app_assoc, <- Hd, <- Hs1. exact Hseg.
Qed.

Lemma re_separator_sep_cell (l : bool) (n : nat) (r : bool) :
  2 <= n -> re_separator (sep_cell l n r) = true.
Proof.
  intros Hn. unfold re_separator. fold is_dash.
  assert (H1 : drop_opt COLON (sep_cell l n r) = repeat DASH n ++ opt_colon r).
  { unfold drop_opt. rewrite sep_cell_startswith by lia.
    destruct l; [reflexivity|]. reflexivity. }
  rewrite H1, take_while_dashes, drop_while_dashes, repeat_length.
  apply andb_true_intro. split; [now apply Nat.leb_le|].
  destruct r; reflexivity.
Qed.

Lemma re_separator_trimmed (seg : str) :
  trimmed seg = true -> (re_separator seg = true <-> sep_pattern seg).
Proof.
  intros Ht. split.
  - intros H. destruct (re_separator_shape seg H) as (l & n & r & nl & Hn & E).
    destruct nl.
    + exfalso. rewrite E in Ht. unfold trimmed in Ht.
      rewrite rev_app_distr in Ht. simpl in Ht.
      rewrite andb_false_r in Ht. discriminate.
    + rewrite app_nil_r in E. now exists l, n, r.
  - intros (l & n & r & Hn & E). subst seg. now apply re_separator_sep_cell.
Qed.

Lemma align_of_sep_cell (l : bool) (n : nat) (r : bool) :
  1 <= n ->
  align_of (sep_cell l n r)
  = match l, r with
    | true, true => a_center
    | false, true => a_right
    | _, false => a_left
    end.
Proof.
  intros Hn. unfold align_of, endswith.
  rewrite strip_id by (now apply sep_cell_trimmed).
  rewrite sep_cell_rev, !sep_cell_startswith by assumption.
  now destruct l, r.
Qed.

End SeparatorFacts.

(** ** Cells of [split_row] *)

Section RowFacts.

Lemma Forall_tl (P : char -> Prop) (s : str) : Forall P s -> Forall P (tl s).
Proof. destruct 1; simpl; auto. Qed.

Lemma Forall_removelast (P : char -> Prop) (s : str) :
  Forall P s -> Forall P (removelast s).
Proof.
  induction 1 as [|c s Hc Hs IH]; simpl; auto.
  destruct s; auto.
Qed.

Lemma split_row_Forall (P : char -> Prop) (line : str) :
  Forall P line -> Forall (Forall P) (split_row line).
Proof.
  intros H. unfold split_row. apply Forall_map.
  set (s0 := strip line).
  assert (H0 : Forall P s0) by now apply strip_Forall.
  set (s1 := if startswith PIPE s0 then tl s0 else s0).
  assert (H1 : Forall P s1).
  { unfold s1. destruct (startswith PIPE s0); auto using Forall_tl. }
  set (s2 := if endswith PIPE s1 then removelast s1 else s1).
  assert (H2 : Forall P s2).
  { unfold s2. destruct (endswith PIPE s1); auto using Forall_removelast. }
  eapply Forall_impl; [|apply split_Forall, H2].
  intros c Hc. now apply strip_Forall.
Qed.

Lemma split_row_trimmed (line : str) :
  Forall (fun c => trimmed c = true) (split_row line).
Proof.
  unfold split_row. apply Forall_map, Forall_forall.
  intros c _. apply strip_trimmed.
Qed.

Lemma split_row_no_pipe (line : str) :
  Forall (Forall (fun x => x <> PIPE)) (split_row line).
Proof.
  unfold split_row. apply Forall_map.
  eapply Forall_impl; [|apply split_cells_nosep].
  intros c Hc. now apply strip_Forall.
Qed.


End RowFacts.

(** ** Alignment of a separator cell *)

(** C6. Every separator cell, as [split_row] yields it, that the separator
    pattern accepts is an optional colon, two or more dashes and an
    optional colon, and [align_of] maps it to center when both colons are
    there, to right when only the trailing one is, and to left otherwise;
    so ":---:" is center, "---:" is right, ":---" and "---" are left. *)
Theorem align_of_separator_cell :
  (forall (line seg : str),
      In seg (split_row line) -> re_separator seg = true ->
      exists l n r,
        2 <= n /\ seg = sep_cell l n r
        /\ align_of seg = match l, r with
                          | true, true => a_center
                          | false, true => a_right
                          | _, false => a_left
                          end)
  /\ align_of (lit ":---:") = a_center
  /\ align_of (lit "---:") = a_right
  /\ align_of (lit ":---") = a_left
  /\ align_of (lit "---") = a_left.
Proof.
  split; [|repeat split; reflexivity].
  intros line seg Hin Hre.
  assert (Ht : trimmed seg = true).
  { pose proof (split_row_trimmed line) as H.
    rewrite Forall_forall in H. now apply H. }
  apply (re_separator_trimmed seg Ht) in Hre as (l & n & r & Hn & E).
  exists l, n, r. subst seg. repeat split; auto.
  apply align_of_sep_cell. lia.
Qed.

Lemma align_of_separator_cell_witness :
  exists l n r,
    2 <= n /\ lit "---:" = sep_cell l n r
    /\ align_of (lit "---:") = match l, r with
                               | true, true => a_center
                               | false, true => a_right
                               | _, false => a_left
                               end.
Proof.
  apply (proj1 align_of_separator_cell (lit "| :--- | ---: |") (lit "---:")).
  - vm_compute. right. left. reflexivity.
  - reflexivity.
Defined.

(** ** Quoting of a CSV cell *)

Lemma contains_In (c : char) (s : str) : contains c s = true <-> In c s.
Proof.
  unfold contains. rewrite existsb_exists. split.
  - intros (x & Hx & E). apply N.eqb_eq in E. now subst.
  - intros H. exists c. split; auto. apply N.eqb_refl.
Qed.

Lemma double_char_length (c : char) (s : str) :
  length s <= length (double_char c s).
Proof.
  induction s as [|x s IH]; simpl; auto.
  destruct (x =? c)%N; simpl; lia.
Qed.

(** C7. [_escape_csv] wraps a cell in double quotes, its own double quotes
    doubled, exactly when the cell holds a comma, a double quote, a line
    feed or a carriage return, and returns every other cell as it is;
    the cell [He said 'hi', ok], with double quotes where ['] stands, comes
    out wrapped in double quotes with both inner quotes doubled. *)
Theorem escape_csv_quotes_iff :
  (forall s : str,
      (_escape_csv s = [DQUOTE] ++ double_char DQUOTE s ++ [DQUOTE]
       <-> In COMMA s \/ In DQUOTE s \/ In LF s \/ In CR s)
      /\ (_escape_csv s = s
          <-> ~ (In COMMA s \/ In DQUOTE s \/ In LF s \/ In CR s)))
  /\ _escape_csv (lit "He said " ++ [DQUOTE] ++ lit "hi" ++ [DQUOTE] ++ lit ", ok")
     = [DQUOTE] ++ lit "He said " ++ [DQUOTE; DQUOTE] ++ lit "hi"
       ++ [DQUOTE; DQUOTE] ++ lit ", ok" ++ [DQUOTE]
  /\ _escape_csv (lit "plain cell") = lit "plain cell".
Proof.
  split; [|split; reflexivity].
  intros s.
  assert (Hq : [DQUOTE] ++ double_char DQUOTE s ++ [DQUOTE] <> s).
  { intros E. apply (f_equal (@length char)) in E.
    rewrite !length_app in E. simpl in E.
    pose proof (double_char_length DQUOTE s). lia. }
  assert (Hc : existsb (fun ch => contains ch s) [COMMA; DQUOTE; LF; CR] = true
               <-> In COMMA s \/ In DQUOTE s \/ In LF s \/ In CR s).
  { simpl. rewrite !orb_true_iff, !contains_In. intuition discriminate. }
  unfold _escape_csv.
  destruct (existsb (fun ch => contains ch s) [COMMA; DQUOTE; LF; CR]).
  - assert (HX : In COMMA s \/ In DQUOTE s \/ In LF s \/ In CR s)
      by now apply Hc.
    split; split; intros H; try tauto; congruence.
  - assert (HX : ~ (In COMMA s \/ In DQUOTE s \/ In LF s \/ In CR s)).
    { intros H'. apply Hc in H'. discriminate. }
    split; split; intros H; try tauto; try congruence.
Qed.

(** ** The scenario of the specification *)

(** C2, as the code has it. The four-line input is read as header
    [Col A, Col B], aligns [left, right] and rows [one, 1], [two, 2];
    [to_markdown] writes that table in its canonical form, the columns
    padded to the widest cell and the separator without spaces; the
    canonical text is read as the same table and written back unchanged. *)
Theorem sample_parse_and_render :
  parse_pipe_table (splitlines sample_text) 0 = (Some sample_table, 4)
  /\ to_markdown sample_table = sample_canonical
  /\ parse_pipe_table (splitlines sample_canonical) 0 = (Some sample_table, 4).
Proof. repeat split; vm_compute; reflexivity. Qed.

(** C2, as stated, fails: the text written for the parsed table is not
    the input text. *)
Lemma sample_not_byte_identical :
  ~ (parse_pipe_table (splitlines sample_text) 0 = (Some sample_table, 4)
     /\ to_markdown sample_table = sample_text).
Proof. intros [_ H]. vm_compute in H. discriminate. Qed.

(** ** Failure of [parse_pipe_table] *)

Section ParseFails.

Lemma forallb_false_ex (f : str -> bool) (l : list str) :
  forallb f l = false <-> exists x, In x l /\ f x = false.
Proof.
  induction l as [|a l IH]; simpl.
  - split; [discriminate|intros (x & [] & _)].
  - rewrite andb_false_iff, IH. split.
    + intros [H|(x & Hx & E)]; [exists a|exists x]; auto.
    + intros (x & [->|Hx] & E); [left|right; exists x]; auto.
Qed.

Lemma is_table_line_spec (ln : str) :
  is_table_line ln = true <-> pipe_line ln.
Proof.
  unfold is_table_line, pipe_line.
  rewrite andb_true_iff, contains_In, negb_true_iff.
  destruct (strip ln); intuition congruence.
Qed.

(** [collect] takes the longest run of lines that pass the test. *)
Lemma collect_run (ls : list str) :
  Forall pipe_line (collect ls)
  /\ collect ls = map rstrip_nl (firstn (length (collect ls)) ls)
  /\ (forall l, nth_error ls (length (collect ls)) = Some l ->
                ~ pipe_line (rstrip_nl l)).
Proof.
  induction ls as [|l ls (IH1 & IH2 & IH3)]; simpl.
  - repeat split; auto. discriminate.
  - destruct (is_table_line (rstrip_nl l)) eqn:E; simpl.
    + repeat split; auto.
      * constructor; auto. now apply is_table_line_spec.
      * now f_equal.
    + repeat split; auto. intros l' [= <-] H.
      apply is_table_line_spec in H. congruence.
Qed.

Lemma separator_rejected (line : str) :
  forallb re_separator (split_row line) = false
  <-> exists cell, In cell (split_row line) /\ ~ sep_pattern cell.
Proof.
  rewrite forallb_false_ex.
  pose proof (split_row_trimmed line) as Ht. rewrite Forall_forall in Ht.
  split; intros (c & Hc & H); exists c; split; auto.
  - rewrite <- (re_separator_trimmed c (Ht c Hc)). congruence.
  - rewrite <- (re_separator_trimmed c (Ht c Hc)) in H.
    now destruct (re_separator c).
Qed.

End ParseFails.

(** C4. [parse_pipe_table] returns [(None, start)] exactly when the longest
    run of non-blank lines holding a pipe at [start] has fewer than two
    lines or some cell of its second line is outside the separator pattern;
    it never returns [None] with another index; and a second line
    [| --- | abc |] makes it fail. *)
Theorem parse_pipe_table_fails_iff :
  (forall (lines : list str) (start : nat),
      let run := collect (skipn start lines) in
      (Forall pipe_line run
       /\ run = map rstrip_nl (firstn (length run) (skipn start lines))
       /\ (forall l, nth_error lines (start + length run) = Some l ->
                     ~ pipe_line (rstrip_nl l)))
      /\ (parse_pipe_table lines start = (None, start)
          <-> length run < 2
              \/ exists cell, In cell (split_row (nth 1 run []))
                              /\ ~ sep_pattern cell)
      /\ (fst (parse_pipe_table lines start) = None
          -> snd (parse_pipe_table lines start) = start))
  /\ (forall (lines : list str) (start : nat),
         nth_error lines (S start) = Some (lit "| --- | abc |") ->
         parse_pipe_table lines start = (None, start)).
Proof.
  split.
  - intros lines start run. split; [|split].
    + destruct (collect_run (skipn start lines)) as (H1 & H2 & H3).
      repeat split; auto. intros l Hl. apply H3.
      now rewrite nth_error_skipn.
    + unfold parse_pipe_table. fold run.
      destruct (Nat.ltb_spec (length run) 2) as [Hlt|Hge].
      { split; auto. }
      destruct (forallb re_separator (split_row (nth 1 run []))) eqn:E; simpl.
      * split; [discriminate|]. intros [H|H]; [lia|].
        apply separator_rejected in H. congruence.
      * split; auto. intros _. right. now apply separator_rejected.
    + unfold parse_pipe_table. fold run.
      destruct (length run <? 2); auto.
      destruct (forallb re_separator (split_row (nth 1 run []))); simpl; auto.
      discriminate.
  - intros lines start H.
    replace (S start) with (start + 1) in H by lia.
    rewrite <- nth_error_skipn in H.
    unfold parse_pipe_table.
    destruct (skipn start lines) as [|l0 [|l1 rest]]; try discriminate.
    injection H as ->. cbn [collect].
    destruct (is_table_line (rstrip_nl l0)); [|reflexivity].
    reflexivity.
Qed.

(** ** The regions of [find_tables] *)

Section ScanFacts.

Lemma collect_length (ls : list str) : length (collect ls) <= length ls.
Proof.
  induction ls as [|l ls IH]; simpl; auto.
  destruct (is_table_line (rstrip_nl l)); simpl; lia.
Qed.

Lemma parse_success (lines : list str) (start : nat) (t : MarkdownTable) (j : nat) :
  parse_pipe_table lines start = (Some t, j) ->
  j = start + length (collect (skipn start lines))
  /\ start + 2 <= j /\ j <= length lines
  /\ header t = split_row (nth 0 (collect (skipn start lines)) [])
  /\ rows t = map split_row (skipn 2 (collect (skipn start lines))).
Proof.
  unfold parse_pipe_table.
  set (run := collect (skipn start lines)).
  destruct (Nat.ltb_spec (length run) 2) as [Hlt|Hge]; [discriminate|].
  destruct (forallb re_separator (split_row (nth 1 run []))); [|discriminate].
  simpl. intros [= <- <-]. simpl. repeat split; auto; try lia.
  pose proof (collect_length (skipn start lines)) as Hl. fold run in Hl.
  rewrite length_skipn in Hl. lia.
Qed.


Lemma scan_within (fuel : nat) (lines : list str) (i : nat) :
  Forall (region_within (length lines) i) (scan fuel lines i).
Proof.
  revert i. induction fuel as [|fuel IH]; intros i; simpl; [constructor|].
  destruct (i <? length lines); [|constructor].
  destruct (parse_pipe_table lines i) as [[t|] j] eqn:E.
  - apply parse_success in E as (_ & H1 & H2 & _). constructor.
    + unfold region_within, region_start, region_end; simpl. lia.
    + eapply Forall_impl; [|apply IH].
      unfold region_within. intros r. lia.
  - eapply Forall_impl; [|apply IH]. unfold region_within. intros r. lia.
Qed.

Lemma scan_sorted (fuel : nat) (lines : list str) (i : nat) :
  StronglySorted (fun r1 r2 => region_end r1 <= region_start r2)
                 (scan fuel lines i).
Proof.
  revert i. induction fuel as [|fuel IH]; intros i; simpl; [constructor|].
  destruct (i <? length lines); [|constructor].
  destruct (parse_pipe_table lines i) as [[t|] j] eqn:E; [|apply IH].
  constructor; [apply IH|].
  eapply Forall_impl; [|apply scan_within].
  unfold region_within, region_end. simpl. intros r. lia.
Qed.

(** The result of the loop does not depend on the fuel once that covers the
    lines still to scan. *)
Lemma scan_fuel (lines : list str) (f1 : nat) :
  forall (f2 i : nat),
    length lines - i <= f1 -> length lines - i <= f2 ->
    scan f1 lines i = scan f2 lines i.
Proof.
  induction f1 as [|f1 IH]; intros [|f2] i H1 H2; simpl; auto.
  - destruct (Nat.ltb_spec i (length lines)); [lia|reflexivity].
  - destruct (Nat.ltb_spec i (length lines)); [lia|reflexivity].
  - destruct (Nat.ltb_spec i (length lines)); [|reflexivity].
    destruct (parse_pipe_table lines i) as [[t|] j] eqn:E.
    + apply parse_success in E as (_ & Hj & _). f_equal. apply IH; lia.
    + apply IH; lia.
Qed.

End ScanFacts.

Section TwoTables.

Lemma collect_all_app (a rest : list str) :
  length (collect a) = length a -> collect (a ++ rest) = collect a ++ collect rest.
Proof.
  induction a as [|l a IH]; simpl; auto.
  destruct (is_table_line (rstrip_nl l)); simpl.
  - intros [= H]. now rewrite IH.
  - discriminate.
Qed.

Lemma collect_all_last (a : list str) :
  length (collect a) = length a -> a <> [] -> last a [] <> [].
Proof.
  induction a as [|l a IH]; [congruence|]. simpl.
  destruct (is_table_line (rstrip_nl l)) eqn:E; [|discriminate].
  simpl. intros [= H] _. destruct a as [|l' a].
  - intros ->. discriminate.
  - apply IH; [assumption|discriminate].
Qed.

Lemma blank_not_table_line (blank : str) :
  forallb is_space blank = true -> is_table_line (rstrip_nl blank) = false.
Proof.
  intros H. unfold is_table_line.
  destruct (contains PIPE (rstrip_nl blank)) eqn:E; [|reflexivity].
  exfalso. apply contains_In in E.
  assert (Hs : Forall (fun c => is_space c = true) (rstrip_nl blank)).
  { unfold rstrip_nl. apply Forall_rev, drop_while_Forall, Forall_rev.
    apply Forall_forall. now apply forallb_forall. }
  rewrite Forall_forall in Hs. apply Hs in E. discriminate.
Qed.

Lemma parse_at_skipn (lines : list str) (start : nat) :
  parse_pipe_table lines start
  = (fst (parse_pipe_table (skipn start lines) 0),
     start + snd (parse_pipe_table (skipn start lines) 0)).
Proof.
  unfold parse_pipe_table. simpl skipn.
  destruct (length (collect (skipn start lines)) <? 2); simpl.
  - now rewrite Nat.add_0_r.
  - destruct (forallb re_separator _); simpl; auto.
Qed.

Lemma last_app_r (a b : list str) : b <> [] -> last (a ++ b) [] = last b [].
Proof.
  intros Hb. induction a as [|l a IH]; simpl; auto.
  rewrite IH. destruct (a ++ b) eqn:E; auto.
  apply app_eq_nil in E as [_ ->]. congruence.
Qed.

Lemma skipn_app_exact (a rest : list str) : skipn (length a) (a ++ rest) = rest.
Proof. induction a; simpl; auto. Qed.

Lemma two_blocks_scan (a b : list str) (blank : str) (ta tb : MarkdownTable) :
  table_block a ta -> table_block b tb -> forallb is_space blank = true ->
  find_tables_lines (a ++ blank :: b)
  = [(0, length a, ta); (length a + 1, length a + 1 + length b, tb)].
Proof.
  intros Ha Hb Hblank. unfold table_block in *.
  pose proof (parse_success _ _ _ _ Ha) as (Hla & Ha2 & _).
  pose proof (parse_success _ _ _ _ Hb) as (Hlb & Hb2 & _).
  simpl in Hla, Hlb.
  set (lines := a ++ blank :: b).
  assert (Hlen : length lines = length a + 1 + length b).
  { unfold lines. rewrite length_app. simpl. lia. }
  assert (P0 : parse_pipe_table lines 0 = (Some ta, length a)).
  { rewrite <- Ha. unfold parse_pipe_table, lines. simpl skipn.
    rewrite collect_all_app by congruence. simpl collect.
    rewrite blank_not_table_line by assumption. now rewrite app_nil_r. }
  assert (P1 : parse_pipe_table lines (length a) = (None, length a)).
  { unfold parse_pipe_table, lines. rewrite skipn_app_exact. simpl collect.
    rewrite blank_not_table_line by assumption. reflexivity. }
  assert (P2 : parse_pipe_table lines (length a + 1)
               = (Some tb, length a + 1 + length b)).
  { rewrite parse_at_skipn.
    replace (skipn (length a + 1) lines) with b.
    - rewrite Hb. reflexivity.
    - unfold lines. replace (length a + 1) with (1 + length a) by lia.
      rewrite <- skipn_skipn, skipn_app_exact. reflexivity. }
  unfold find_tables_lines.
  assert (Hk : exists k, length lines = S (S (S (S k))))
    by (exists (length lines - 4); lia).
  destruct Hk as [k Hk].
  assert (L0 : (0 <? length lines) = true) by (apply Nat.ltb_lt; lia).
  assert (L1 : (length a <? length lines) = true) by (apply Nat.ltb_lt; lia).
  assert (L2 : (length a + 1 <? length lines) = true) by (apply Nat.ltb_lt; lia).
  assert (L3 : (length a + 1 + length b <? length lines) = false)
    by (apply Nat.ltb_ge; lia).
  rewrite Hk at 1. cbn [scan]. rewrite L0, P0. cbn [scan]. rewrite L1, P1.
  cbn [scan]. rewrite L2, P2. cbn [scan]. now rewrite L3.
Qed.

End TwoTables.

(** C9. The regions of [find_tables] come in line order and do not
    overlap: each spans at least its first line, and each starts at or
    after the exclusive end of every region before it; the scanning loop
    has the fuel it needs; and two table blocks with a blank line between
    them are found as exactly two regions, one per block. *)
Theorem find_tables_regions_disjoint :
  (forall text : str,
      StronglySorted (fun r1 r2 => region_end r1 <= region_start r2)
                     (find_tables text)
      /\ StronglySorted (fun r1 r2 => region_start r1 < region_start r2)
                        (find_tables text)
      /\ Forall (fun r => region_start r < region_end r) (find_tables text)
      /\ (forall fuel, length (splitlines text) <= fuel ->
                       scan fuel (splitlines text) 0 = find_tables text))
  /\ (forall (a b : list str) (blank : str) (ta tb : MarkdownTable),
         table_block a ta -> table_block b tb ->
         forallb is_space blank = true ->
         Forall (Forall no_break) (a ++ blank :: b) ->
         find_tables (join [LF] (a ++ blank :: b))
         = [(0, length a, ta); (length a + 1, length a + 1 + length b, tb)]).
Proof.
  split.
  - intros text. unfold find_tables, find_tables_lines.
    set (lines := splitlines text).
    pose proof (scan_within (length lines) lines 0) as Hw.
    pose proof (scan_sorted (length lines) lines 0) as Hs.
    repeat split; auto.
    + revert Hw. induction Hs as [|r rs Hrs IH Hr]; intros Hw; constructor.
      * apply IH. now inversion Hw.
      * inversion Hw as [|? ? Hwr _]; subst.
        eapply Forall_impl; [|exact Hr]. unfold region_within in Hwr.
        intros r2. simpl. lia.
    + eapply Forall_impl; [|exact Hw]. unfold region_within. intros r. lia.
    + intros fuel Hf. apply scan_fuel; lia.
  - intros a b blank ta tb Ha Hb Hblank Hnb. unfold find_tables.
    rewrite splitlines_join; auto using two_blocks_scan.
    pose proof (parse_success _ _ _ _ Hb) as (Hlb & Hb2 & _). simpl in Hlb, Hb2.
    assert (Hne : b <> []) by (intros ->; simpl in Hb2; lia).
    replace (a ++ blank :: b) with ((a ++ [blank]) ++ b)
      by (now rewrite <- app_assoc).
    rewrite last_app_r by assumption.
    apply collect_all_last; auto.
Qed.

(** ** Cells of a parsed table *)

Section CellFacts.

Lemma rstrip_nl_Forall (P : char -> Prop) (s : str) :
  Forall P s -> Forall P (rstrip_nl s).
Proof.
  intros H. unfold rstrip_nl. now apply Forall_rev, drop_while_Forall, Forall_rev.
Qed.

Lemma collect_Forall (P : char -> Prop) (ls : list str) :
  Forall (Forall P) ls -> Forall (Forall P) (collect ls).
Proof.
  induction 1 as [|l ls Hl Hls IH]; simpl; auto.
  destruct (is_table_line (rstrip_nl l)); auto using rstrip_nl_Forall.
Qed.

Lemma Forall_nth_nil (P : char -> Prop) (ls : list str) (i : nat) :
  Forall (Forall P) ls -> Forall P (nth i ls []).
Proof.
  intros H. revert i. induction H as [|l ls Hl Hls IH]; intros [|i]; simpl; auto.
Qed.

Lemma Forall_skipn_str (P : str -> Prop) (ls : list str) (n : nat) :
  Forall P ls -> Forall P (skipn n ls).
Proof.
  intros H. revert n. induction H as [|l ls Hl Hls IH]; intros [|n]; simpl; auto.
Qed.

Lemma no_break_not_In (c : str) :
  Forall no_break c -> ~ In LF c /\ ~ In CR c.
Proof.
  intros H. rewrite Forall_forall in H.
  split; intros Hin; apply H in Hin; discriminate.
Qed.

Lemma split_row_cells_ok (line : str) :
  Forall no_break line -> Forall cell_ok (split_row line).
Proof.
  intros H.
  pose proof (split_row_trimmed line) as H1.
  pose proof (split_row_no_pipe line) as H2.
  pose proof (split_row_Forall no_break line H) as H3.
  rewrite Forall_forall in *. intros c Hc.
  destruct (no_break_not_In c (H3 c Hc)) as [Hlf Hcr].
  repeat split; auto.
  intros Hin. specialize (H2 c Hc). rewrite Forall_forall in H2.
  now apply (H2 PIPE).
Qed.

Lemma parse_cells_ok (lines : list str) (start : nat) (t : MarkdownTable) (j : nat) :
  Forall (Forall no_break) lines ->
  parse_pipe_table lines start = (Some t, j) -> cells_ok t.
Proof.
  intros Hl Hp. apply parse_success in Hp as (_ & _ & _ & Hh & Hr).
  assert (Hrun : Forall (Forall no_break) (collect (skipn start lines)))
    by (apply collect_Forall, Forall_skipn_str, Hl).
  split.
  - rewrite Hh. apply split_row_cells_ok. now apply Forall_nth_nil.
  - rewrite Hr. apply Forall_map.
    eapply Forall_impl; [|apply Forall_skipn_str, Hrun].
    intros l. apply split_row_cells_ok.
Qed.

Lemma scan_cells_ok (fuel : nat) (lines : list str) (i : nat) :
  Forall (Forall no_break) lines ->
  Forall (fun r => cells_ok (region_table r)) (scan fuel lines i).
Proof.
  intros Hl. revert i. induction fuel as [|fuel IH]; intros i; simpl; auto.
  destruct (i <? length lines); auto.
  destruct (parse_pipe_table lines i) as [[t|] j] eqn:E; auto.
  constructor; auto. simpl. eapply parse_cells_ok; eauto.
Qed.

End CellFacts.

(** C10. For every input text, a table that [parse_pipe_table] returns on
    its lines, from any start line, and every table of [find_tables], has
    header cells and row cells without white space at either end, without
    a pipe and without a line feed, a carriage return or any other line
    boundary; and the region returned spans two lines or more. *)
Theorem parsed_cells_clean :
  (forall (text : str) (start : nat) (t : MarkdownTable) (j : nat),
      parse_pipe_table (splitlines text) start = (Some t, j) ->
      cells_ok t /\ start + 2 <= j)
  /\ (forall text : str,
         Forall (fun r => cells_ok (region_table r)
                          /\ region_start r + 2 <= region_end r)
                (find_tables text)).
Proof.
  split.
  - intros text start t j H. split.
    + eapply parse_cells_ok; [apply splitlines_no_break|exact H].
    + now apply parse_success in H.
  - intros text. unfold find_tables, find_tables_lines.
    set (lines := splitlines text).
    pose proof (scan_cells_ok (length lines) lines 0 (splitlines_no_break text)) as H1.
    pose proof (scan_within (length lines) lines 0) as H2.
    rewrite Forall_forall in *. intros r Hr. split; [now apply H1|].
    now apply H2.
Qed.

Lemma parsed_cells_clean_witness :
  cells_ok sample_table /\ 0 + 2 <= 4.
Proof.
  apply (proj1 parsed_cells_clean sample_text 0 sample_table 4).
  vm_compute. reflexivity.
Defined.

Lemma find_tables_regions_disjoint_witness :
  find_tables (join [LF] ([lit "| a | b |"; lit "|---|--:|"] ++ lit " "
                          :: [lit "c|d"; lit ":--:|---"; lit "1|2"]))
  = [(0, 2, mkTable [lit "a"; lit "b"] [a_left; a_right] []);
     (3, 6, mkTable [lit "c"; lit "d"] [a_center; a_left] [[lit "1"; lit "2"]])].
Proof.
  apply (proj2 find_tables_regions_disjoint
               [lit "| a | b |"; lit "|---|--:|"]
               [lit "c|d"; lit ":--:|---"; lit "1|2"] (lit " ")).
  - vm_compute. reflexivity.
  - vm_compute. reflexivity.
  - vm_compute. reflexivity.
  - repeat constructor.
Defined.

Lemma parse_pipe_table_fails_witness :
  parse_pipe_table [lit "| a | b |"; lit "| --- | abc |"; lit "| 1 | 2 |"] 0
  = (None, 0).
Proof.
  apply (proj2 parse_pipe_table_fails_iff). vm_compute. reflexivity.
Defined.

(** ** Reading back what [to_markdown] writes *)

Section Bars.

(** A line [|p0|p1|...|] whose parts hold no pipe. *)
Variable parts : list str.
Hypothesis parts_not_nil : parts <> [].
Hypothesis parts_no_pipe : Forall (Forall (fun c => c <> PIPE)) parts.

Lemma bars_rev : rev (bars parts) = PIPE :: rev (join [PIPE] parts) ++ [PIPE].
Proof.
  unfold bars. rewrite !rev_app_distr. reflexivity.
Qed.

Lemma bars_strip : strip (bars parts) = bars parts.
Proof.
  apply strip_id. unfold trimmed. rewrite bars_rev. reflexivity.
Qed.

Lemma bars_split_row : split_row (bars parts) = map strip parts.
Proof.
  unfold split_row. rewrite bars_strip.
  assert (H1 : (if startswith PIPE (bars parts) then tl (bars parts) else bars parts)
               = join [PIPE] parts ++ [PIPE]) by reflexivity.
  assert (H2 : endswith PIPE (join [PIPE] parts ++ [PIPE]) = true).
  { unfold endswith. rewrite rev_app_distr. reflexivity. }
  rewrite H1, H2, removelast_last.
  now rewrite split_join.
Qed.

Lemma bars_rstrip_nl : rstrip_nl (bars parts) = bars parts.
Proof.
  unfold rstrip_nl. rewrite bars_rev. cbn [drop_while].
  change (PIPE =? LF)%N with false. cbv iota.
  rewrite <- bars_rev. apply rev_involutive.
Qed.

Lemma bars_table_line : is_table_line (bars parts) = true.
Proof.
  unfold is_table_line. rewrite bars_strip. reflexivity.
Qed.

Lemma bars_no_break :
  Forall (Forall no_break) parts -> Forall no_break (bars parts).
Proof.
  intros H. unfold bars.
  assert (Hj : Forall no_break (join [PIPE] parts)).
  { clear parts_not_nil parts_no_pipe.
    induction H as [|p ps Hp Hps IH]; simpl; auto.
    destruct ps as [|q ps]; auto.
    apply Forall_app; split; auto.
    constructor; [reflexivity|exact IH]. }
  constructor; [reflexivity|].
  apply Forall_app; split; auto. repeat constructor.
Qed.

End Bars.

Section RenderFacts.

Lemma clean_cell_spec (c : str) :
  clean_cell c = true ->
  trimmed c = true /\ Forall (fun x => x <> PIPE) c /\ Forall no_break c.
Proof.
  unfold clean_cell. intros H. apply andb_prop in H as [Ht Hf].
  rewrite forallb_forall in Hf. repeat split; auto; apply Forall_forall;
    intros x Hx; apply Hf in Hx; apply andb_prop in Hx as [H1 H2].
  - apply negb_true_iff in H1. now apply N.eqb_neq.
  - now apply negb_true_iff in H2.
Qed.

Lemma spaces_forallb (k : nat) : forallb is_space (repeat SPACE k ++ [SPACE]) = true.
Proof. induction k; simpl; auto. Qed.

Lemma fmt_cell_strip (widths : list nat) (cells : list str) (i : nat) :
  trimmed (cell_at cells i) = true ->
  strip (fmt_cell widths cells i) = cell_at cells i.
Proof.
  intros H. unfold fmt_cell, ljust. rewrite <- app_assoc.
  apply strip_padded; auto using spaces_forallb.
Qed.

Lemma fmt_cell_Forall (P : char -> Prop) (widths : list nat) (cells : list str) (i : nat) :
  P SPACE -> Forall P (cell_at cells i) -> Forall P (fmt_cell widths cells i).
Proof.
  intros Hs H. unfold fmt_cell, ljust.
  constructor; auto. repeat (apply Forall_app; split); auto.
  apply Forall_forall. intros x Hx. now apply repeat_spec in Hx as ->.
Qed.

Lemma clean_row_seq (cols : nat) (cells : list str) :
  forallb clean_cell (canon_row cols cells) = true ->
  forall i, In i (seq 0 cols) -> clean_cell (cell_at cells i) = true.
Proof.
  intros H i Hi. rewrite forallb_forall in H. apply H.
  unfold canon_row. now apply in_map.
Qed.

Lemma seq_not_nil (cols : nat) (f : nat -> str) :
  cols <> 0 -> map f (seq 0 cols) <> [].
Proof. destruct cols; simpl; congruence. Qed.

Lemma fmt_row_bars (cols : nat) (widths : list nat) (cells : list str) :
  fmt_row cols widths cells = bars (map (fmt_cell widths cells) (seq 0 cols)).
Proof. reflexivity. Qed.

Lemma fmt_row_parts (cols : nat) (widths : list nat) (cells : list str) :
  forallb clean_cell (canon_row cols cells) = true ->
  Forall (Forall (fun c => c <> PIPE)) (map (fmt_cell widths cells) (seq 0 cols))
  /\ Forall (Forall no_break) (map (fmt_cell widths cells) (seq 0 cols)).
Proof.
  intros H. pose proof (clean_row_seq cols cells H) as Hc.
  split; apply Forall_map, Forall_forall; intros i Hi;
    destruct (clean_cell_spec _ (Hc i Hi)) as (_ & H1 & H2);
    apply fmt_cell_Forall; auto; try discriminate; reflexivity.
Qed.

Lemma fmt_row_split_row (cols : nat) (widths : list nat) (cells : list str) :
  cols <> 0 -> forallb clean_cell (canon_row cols cells) = true ->
  split_row (fmt_row cols widths cells) = canon_row cols cells.
Proof.
  intros Hc H. rewrite fmt_row_bars.
  rewrite bars_split_row;
    [|now apply seq_not_nil|now apply fmt_row_parts].
  rewrite map_map. unfold canon_row. apply map_ext_in.
  intros i Hi. apply fmt_cell_strip.
  now destruct (clean_cell_spec _ (clean_row_seq cols cells H i Hi)).
Qed.

End RenderFacts.

Section SeparatorRow.

Lemma fmt_align_shape (al : list align) (widths : list nat) (i : nat) :
  fmt_align al widths i
  = sep_cell (colon_left (nth i al a_left))
             (dashes (nth i al a_left) (nth i widths 0))
             (colon_right (nth i al a_left)).
Proof.
  unfold fmt_align, sep_cell.
  destruct (nth i al a_left); simpl; now rewrite ?app_nil_r.
Qed.

Lemma sep_cell_chars (P : char -> Prop) (l : bool) (n : nat) (r : bool) :
  P COLON -> P DASH -> Forall P (sep_cell l n r).
Proof.
  intros Hc Hd. unfold sep_cell. repeat (apply Forall_app; split).
  - destruct l; repeat constructor; auto.
  - apply Forall_forall. intros x Hx. now apply repeat_spec in Hx as ->.
  - destruct r; repeat constructor; auto.
Qed.

Variables (cols : nat) (al : list align) (widths : list nat).
Hypothesis cols_pos : cols <> 0.
Hypothesis wide :
  forall i, In i (seq 0 cols) -> 2 <= dashes (nth i al a_left) (nth i widths 0).

Lemma fmt_sep_parts :
  Forall (Forall (fun c => c <> PIPE)) (map (fmt_align al widths) (seq 0 cols))
  /\ Forall (Forall no_break) (map (fmt_align al widths) (seq 0 cols)).
Proof.
  split; apply Forall_map, Forall_forall; intros i _;
    rewrite fmt_align_shape; apply sep_cell_chars;
    try discriminate; reflexivity.
Qed.

Lemma fmt_sep_split_row :
  split_row (fmt_sep cols al widths) = map (fmt_align al widths) (seq 0 cols).
Proof.
  change (fmt_sep cols al widths) with (bars (map (fmt_align al widths) (seq 0 cols))).
  rewrite bars_split_row;
    [|now apply seq_not_nil|apply fmt_sep_parts].
  rewrite map_map. apply map_ext_in. intros i Hi.
  rewrite fmt_align_shape. apply strip_id, sep_cell_trimmed.
  specialize (wide i Hi). lia.
Qed.

Lemma fmt_sep_accepted :
  forallb re_separator (split_row (fmt_sep cols al widths)) = true.
Proof.
  rewrite fmt_sep_split_row. apply forallb_forall. intros c Hc.
  apply in_map_iff in Hc as (i & <- & Hi).
  rewrite fmt_align_shape. now apply re_separator_sep_cell, wide.
Qed.

Lemma fmt_sep_aligns :
  map align_of (split_row (fmt_sep cols al widths))
  = map (fun i => nth i al a_left) (seq 0 cols).
Proof.
  rewrite fmt_sep_split_row, map_map. apply map_ext_in. intros i Hi.
  rewrite fmt_align_shape, align_of_sep_cell by (specialize (wide i Hi); lia).
  now destruct (nth i al a_left).
Qed.

End SeparatorRow.

Section RoundTrip.

Lemma canon_row_id (r : list str) : canon_row (length r) r = r.
Proof.
  unfold canon_row. induction r as [|c r IH]; simpl; auto.
  f_equal. rewrite <- seq_shift, map_map. exact IH.
Qed.

Lemma cell_at_canon_row (cols : nat) (r : list str) (i : nat) :
  i < cols -> cell_at (canon_row cols r) i = cell_at r i.
Proof.
  intros Hi. unfold cell_at at 1, canon_row.
  rewrite (nth_indep _ [] (cell_at r 0)) by (now rewrite length_map, length_seq).
  now rewrite map_nth, seq_nth.
Qed.

Lemma collect_id (ls : list str) :
  Forall (fun l => rstrip_nl l = l /\ is_table_line l = true) ls ->
  collect ls = ls.
Proof.
  induction 1 as [|l ls [H1 H2] Hls IH]; simpl; auto.
  now rewrite H1, H2, IH.
Qed.

Lemma renderable_spec (t : MarkdownTable) :
  renderable t = true ->
  length (header t) <> 0
  /\ forallb clean_cell (canon_row (length (header t)) (header t)) = true
  /\ Forall (fun r => forallb clean_cell (canon_row (length (header t)) r) = true)
            (rows t)
  /\ (forall i, In i (seq 0 (length (header t))) ->
                2 <= dashes (nth i (aligns t) a_left) (nth i (col_widths t) 0)).
Proof.
  unfold renderable. intros H.
  apply andb_prop in H as [H H4]. apply andb_prop in H as [H H3].
  apply andb_prop in H as [H1 H2].
  repeat split.
  - apply negb_true_iff, Nat.eqb_neq in H1. exact H1.
  - now rewrite canon_row_id.
  - apply Forall_forall. now apply forallb_forall.
  - intros i Hi. rewrite forallb_forall in H4. now apply Nat.leb_le, H4.
Qed.

(** Every line of the rendering is a table line without a line boundary. *)
Lemma md_lines_ok (t : MarkdownTable) :
  renderable t = true ->
  Forall (fun l => (rstrip_nl l = l /\ is_table_line l = true)
                   /\ Forall no_break l /\ l <> [])
         (md_lines t).
Proof.
  intros H. destruct (renderable_spec t H) as (Hc & Hh & Hr & Hw).
  assert (Hrow : forall cells,
             forallb clean_cell (canon_row (length (header t)) cells) = true ->
             let l := fmt_row (length (header t)) (col_widths t) cells in
             (rstrip_nl l = l /\ is_table_line l = true)
             /\ Forall no_break l /\ l <> []).
  { intros cells Hcl l. unfold l. rewrite fmt_row_bars.
    destruct (fmt_row_parts (length (header t)) (col_widths t) cells Hcl) as [P1 P2].
    repeat split.
    - apply bars_rstrip_nl.
    - apply bars_table_line.
    - now apply bars_no_break.
    - discriminate. }
  unfold md_lines. constructor; [now apply Hrow|]. constructor.
  - change (fmt_sep (length (header t)) (aligns t) (col_widths t))
      with (bars (map (fmt_align (aligns t) (col_widths t))
                      (seq 0 (length (header t))))).
    destruct (fmt_sep_parts (length (header t)) (aligns t) (col_widths t))
      as [P1 P2].
    repeat split.
    + apply bars_rstrip_nl.
    + apply bars_table_line.
    + now apply bars_no_break.
    + discriminate.
  - apply Forall_map. eapply Forall_impl; [|exact Hr].
    intros r Hcl. now apply Hrow.
Qed.

Lemma parse_md_lines (t : MarkdownTable) :
  renderable t = true ->
  parse_pipe_table (md_lines t) 0 = (Some (canon t), 2 + length (rows t)).
Proof.
  intros H. destruct (renderable_spec t H) as (Hc & Hh & Hr & Hw).
  unfold parse_pipe_table. cbn [skipn].
  rewrite collect_id
    by (eapply Forall_impl; [|apply md_lines_ok, H]; now intros l [Hl _]).
  unfold md_lines. cbn [length Nat.ltb Nat.leb nth skipn].
  rewrite fmt_sep_accepted by assumption. cbn [negb].
  rewrite fmt_sep_aligns by assumption.
  rewrite fmt_row_split_row, canon_row_id by assumption.
  rewrite map_map, length_map. unfold canon. do 2 f_equal.
  f_equal. apply map_ext_in. intros r Hin. apply fmt_row_split_row; auto.
  rewrite Forall_forall in Hr. now apply Hr.
Qed.

Lemma splitlines_to_markdown (t : MarkdownTable) :
  renderable t = true -> splitlines (to_markdown t) = md_lines t.
Proof.
  intros H. pose proof (md_lines_ok t H) as Hok.
  unfold to_markdown. apply splitlines_join.
  - eapply Forall_impl; [|exact Hok]. now intros l (_ & Hl & _).
  - assert (Hne : md_lines t <> []) by discriminate.
    revert Hne. induction Hok as [|l ls (_ & _ & Hl) Hls IH]; [congruence|].
    intros _. destruct ls as [|l' ls]; [exact Hl|].
    apply IH. discriminate.
Qed.

End RoundTrip.

Section Canon.

Variable t : MarkdownTable.

Let cols : nat := length (header t).

Lemma widen_canon (widths : list nat) (r : list str) :
  widen cols widths (canon_row cols r) = widen cols widths r.
Proof.
  unfold widen. apply map_ext_in. intros i Hi. apply in_seq in Hi.
  rewrite cell_at_canon_row by lia. reflexivity.
Qed.

Lemma fold_widen_canon (rs : list (list str)) (widths : list nat) :
  fold_left (widen cols) (map (canon_row cols) rs) widths
  = fold_left (widen cols) rs widths.
Proof.
  revert widths. induction rs as [|r rs IH]; intros widths; simpl; auto.
  now rewrite widen_canon, IH.
Qed.

Lemma col_widths_canon : col_widths (canon t) = col_widths t.
Proof. unfold col_widths, canon. simpl. apply fold_widen_canon. Qed.

Lemma fmt_row_canon (widths : list nat) (r : list str) :
  fmt_row cols widths (canon_row cols r) = fmt_row cols widths r.
Proof.
  assert (E : map (fmt_cell widths (canon_row cols r)) (seq 0 cols)
              = map (fmt_cell widths r) (seq 0 cols)).
  { apply map_ext_in. intros i Hi. apply in_seq in Hi. unfold fmt_cell.
    rewrite cell_at_canon_row by lia. reflexivity. }
  unfold fmt_row. now rewrite E.
Qed.

Lemma fmt_sep_canon (widths : list nat) :
  fmt_sep cols (aligns (canon t)) widths = fmt_sep cols (aligns t) widths.
Proof.
  assert (E : map (fmt_align (aligns (canon t)) widths) (seq 0 cols)
              = map (fmt_align (aligns t) widths) (seq 0 cols)).
  { apply map_ext_in. intros i Hi. apply in_seq in Hi.
    unfold fmt_align, canon. simpl. fold cols.
    rewrite (nth_indep _ a_left (nth 0 (aligns t) a_left))
      by (rewrite length_map, length_seq; lia).
    rewrite (map_nth (fun i => nth i (aligns t) a_left)), seq_nth by lia.
    reflexivity. }
  unfold fmt_sep. now rewrite E.
Qed.

Lemma md_lines_canon : md_lines (canon t) = md_lines t.
Proof.
  unfold md_lines. rewrite col_widths_canon.
  change (length (header (canon t))) with cols.
  change (header (canon t)) with (header t).
  rewrite fmt_sep_canon. do 2 f_equal.
  change (rows (canon t)) with (map (canon_row cols) (rows t)).
  rewrite map_map. apply map_ext. intros r. apply fmt_row_canon.
Qed.

Lemma to_markdown_canon : to_markdown (canon t) = to_markdown t.
Proof. unfold to_markdown. now rewrite md_lines_canon. Qed.

Lemma canon_rows_id :
  Forall (fun r => length r = cols) (rows t) -> rows (canon t) = rows t.
Proof.
  intros H. unfold canon. simpl. fold cols.
  induction H as [|r rs Hr Hrs IH]; simpl; auto.
  rewrite IH. f_equal. rewrite <- Hr. apply canon_row_id.
Qed.

Lemma canon_aligns_id :
  length (aligns t) = cols -> aligns (canon t) = aligns t.
Proof.
  intros H. unfold canon. simpl. fold cols. rewrite <- H. clear H.
  induction (aligns t) as [|a al IH]; simpl; auto.
  f_equal. rewrite <- seq_shift, map_map. exact IH.
Qed.

End Canon.

Lemma reparse_render_fixed (t : MarkdownTable) :
  renderable t = true -> reparse_render (to_markdown t) = Some (to_markdown t).
Proof.
  intros H. unfold reparse_render.
  rewrite splitlines_to_markdown, parse_md_lines by assumption.
  now rewrite to_markdown_canon.
Qed.

Lemma find_tables_lines_md (t : MarkdownTable) :
  renderable t = true ->
  find_tables_lines (md_lines t) = [(0, 2 + length (rows t), canon t)].
Proof.
  intros H. unfold find_tables_lines.
  assert (Hlen : length (md_lines t) = S (S (length (rows t))))
    by (unfold md_lines; simpl; now rewrite length_map).
  assert (L0 : (0 <? length (md_lines t)) = true) by (apply Nat.ltb_lt; lia).
  assert (L1 : (2 + length (rows t) <? length (md_lines t)) = false)
    by (apply Nat.ltb_ge; lia).
  rewrite Hlen at 1. cbn [scan].
  rewrite L0, parse_md_lines by assumption.
  cbn [scan]. now rewrite L1.
Qed.

(** C1, as the code has it. For a table with a header that is not empty,
    whose rendered cells have no white space at either end, no pipe and no
    line boundary, and whose columns are wide enough for two dashes in the
    separator, [find_tables] on the rendering returns exactly one region,
    from line 0 to the last line; its table has the same header, the rows
    cut or filled with empty cells to the column count and the alignments
    cut or filled with [left]: the same rows and alignments when each has
    one entry per column. *)
Theorem find_tables_to_markdown (t : MarkdownTable) :
  renderable t = true ->
  find_tables (to_markdown t) = [(0, 2 + length (rows t), canon t)]
  /\ header (canon t) = header t
  /\ (Forall (fun r => length r = length (header t)) (rows t) ->
      length (aligns t) = length (header t) ->
      rows (canon t) = rows t /\ aligns (canon t) = aligns t /\ round_trips t).
Proof.
  intros H.
  assert (F : find_tables (to_markdown t) = [(0, 2 + length (rows t), canon t)]).
  { unfold find_tables. rewrite splitlines_to_markdown by assumption.
    now apply find_tables_lines_md. }
  repeat split; auto using canon_rows_id, canon_aligns_id.
  exists 0, (2 + length (rows t)), (canon t).
  repeat split; auto using canon_rows_id, canon_aligns_id.
Qed.

Lemma find_tables_to_markdown_witness :
  find_tables (to_markdown sample_table) = [(0, 2 + 2, canon sample_table)]
  /\ header (canon sample_table) = header sample_table
  /\ (Forall (fun r => length r = 2) (rows sample_table) ->
      length (aligns sample_table) = 2 ->
      rows (canon sample_table) = rows sample_table
      /\ aligns (canon sample_table) = aligns sample_table
      /\ round_trips sample_table).
Proof.
  apply (find_tables_to_markdown sample_table). vm_compute. reflexivity.
Defined.

(** C1, as stated, fails: a header cell with a pipe comes back as two
    cells, one with a leading space comes back without it, one with a line
    feed is torn over two lines, a row shorter than the header comes back
    filled with an empty cell and a longer one comes back cut. *)
Lemma round_trip_fails :
  ~ round_trips (mkTable [lit "a|b"] [a_left] [])
  /\ ~ round_trips (mkTable [lit " ab"] [a_left] [])
  /\ ~ round_trips (mkTable [lit "a" ++ [LF] ++ lit "b"] [a_left] [])
  /\ ~ round_trips (mkTable [lit "ab"; lit "cd"] [a_left; a_left] [[lit "x"]])
  /\ ~ round_trips (mkTable [lit "ab"] [a_left] [[lit "x"; lit "y"]]).
Proof.
  repeat split; intros (s & e & t' & H & Hh & Hr & Ha);
    vm_compute in H; injection H as _ _ <-; discriminate.
Qed.

(** A column too narrow for two dashes: the separator written for a
    centered one-character column is [:-:], which the parser rejects. *)
Lemma narrow_column_not_found :
  to_markdown (mkTable [lit "a"] [a_center] []) = lit "| a |" ++ [LF] ++ lit "|:-:|"
  /\ find_tables (to_markdown (mkTable [lit "a"] [a_center] [])) = [].
Proof. split; vm_compute; reflexivity. Qed.

(** C3, as the code has it. For a table as in C1, rendering, parsing the
    rendering at line 0 and rendering again gives the first rendering byte
    for byte, and so does any number of further cycles. *)
Theorem render_parse_render_fixed (t : MarkdownTable) :
  renderable t = true ->
  reparse_render (to_markdown t) = Some (to_markdown t)
  /\ forall n, cycles n (to_markdown t) = Some (to_markdown t).
Proof.
  intros H. split; [now apply reparse_render_fixed|].
  induction n as [|n IH]; simpl; auto.
  now rewrite reparse_render_fixed.
Qed.

Lemma render_parse_render_fixed_witness :
  reparse_render (to_markdown sample_table) = Some (to_markdown sample_table)
  /\ forall n, cycles n (to_markdown sample_table) = Some (to_markdown sample_table).
Proof.
  apply (render_parse_render_fixed sample_table). vm_compute. reflexivity.
Defined.

(** C3, as stated, fails: the rendering of the empty table has no table to
    parse, nor has the rendering of a header cell with a line feed, and
    with a pipe or a leading space in a cell the second rendering differs
    from the first. *)
Lemma render_parse_render_changes :
  reparse_render (to_markdown (mkTable [] [] [])) = None
  /\ reparse_render (to_markdown (mkTable [lit "a" ++ [LF] ++ lit "b"] [a_left] []))
     = None
  /\ reparse_render (to_markdown (mkTable [lit "a|b"] [a_left] []))
     <> Some (to_markdown (mkTable [lit "a|b"] [a_left] []))
  /\ reparse_render (to_markdown (mkTable [lit " ab"] [a_left] []))
     <> Some (to_markdown (mkTable [lit " ab"] [a_left] [])).
Proof.
  repeat split; try (vm_compute; reflexivity);
    intros H; vm_compute in H; discriminate.
Qed.

(** ** The delimited-text reader *)

Section ReaderFacts.

Import Csv.

Variable P : char -> Prop.
Variable delimiter : char.

Lemma save_field_all (r : ReaderObj) :
  reader_all P r -> reader_all P (parse_save_field r).
Proof.
  intros [H1 H2]. split; simpl; auto.
  apply Forall_app; split; auto.
Qed.

Lemma add_char_all (r r' : ReaderObj) (c : char) :
  reader_all P r -> P c -> parse_add_char r c = Some r' -> reader_all P r'.
Proof.
  unfold parse_add_char. intros [H1 H2] Hc.
  destruct (field_limit <=? N.of_nat (length (field r)))%N; [discriminate|].
  intros [= <-]. split; simpl; auto.
  apply Forall_app; split; auto.
Qed.

Lemma set_state_all (r : ReaderObj) (s : ParserState) :
  reader_all P r -> reader_all P (set_state r s).
Proof. intros [H1 H2]. split; simpl; auto. Qed.

Lemma add_char_state_all (r r' : ReaderObj) (c : char) (s : ParserState) :
  reader_all P r -> P c ->
  option_map (fun x => set_state x s) (parse_add_char r c) = Some r' ->
  reader_all P r'.
Proof.
  intros Hr Hc H. destruct (parse_add_char r c) as [x|] eqn:E; [|discriminate].
  injection H as <-. eapply set_state_all, add_char_all; eauto.
Qed.

Lemma process_char_all (r r' : ReaderObj) (c : sym) :
  reader_all P r -> match c with Chr x => P x | EOL => True end ->
  parse_process_char delimiter r c = Some r' -> reader_all P r'.
Proof.
  intros Hr Hc. unfold parse_process_char, start_field, end_of_line.
  destruct (state r), c as [x|];
    repeat match goal with
           | |- context [if ?b then _ else _] => destruct b
           end;
    intros H;
    try (injection H as <-);
    try discriminate;
    auto using save_field_all, set_state_all;
    try (eapply add_char_state_all; [| |exact H]; auto using set_state_all);
    try (eapply add_char_all; [| |exact H]; auto).
Qed.

Lemma feed_all (line : str) :
  forall r r', reader_all P r -> Forall P line ->
               feed delimiter r line = Some r' -> reader_all P r'.
Proof.
  induction line as [|c line IH]; simpl; intros r r' Hr Hl.
  - now intros [= <-].
  - inversion Hl; subst.
    destruct (parse_process_char delimiter r (Chr c)) as [r1|] eqn:E;
      [|discriminate].
    apply IH; auto. eapply process_char_all; eauto. exact H1.
Qed.

Lemma records_all (lines : list str) :
  forall r rows, reader_all P r -> Forall (Forall P) lines ->
                 records delimiter r lines = Some rows ->
                 Forall (Forall (Forall P)) rows.
Proof.
  induction lines as [|line lines IH]; simpl; intros r rows Hr Hl.
  - assert (Hs : Forall (Forall P) (fields (parse_save_field r)))
      by apply save_field_all, Hr.
    simpl in Hs. revert Hs.
    destruct (field r), (state r); intros Hs [= <-]; repeat constructor; auto.
  - inversion Hl; subst.
    destruct (feed delimiter r line) as [r1|] eqn:E1; [|discriminate].
    destruct (parse_process_char delimiter r1 EOL) as [r2|] eqn:E2; [|discriminate].
    assert (R1 : reader_all P r1) by (eapply feed_all; eauto).
    assert (R2 : reader_all P r2) by (eapply process_char_all; eauto; exact I).
    assert (Hnext : forall rows', records delimiter r2 lines = Some rows' ->
                                  Forall (Forall (Forall P)) rows')
      by (intros rows'; now apply IH).
    destruct (state r2); auto.
    destruct (records delimiter reset lines) as [rows'|] eqn:E3; [|discriminate].
    intros [= <-]. constructor; [apply R2|].
    eapply IH; [|assumption|exact E3]. split; constructor.
Qed.

End ReaderFacts.

(** C5 fails on the code. [_parse_delimited] hands [csv.reader] the lines of
    [text.splitlines()], which have lost their line boundaries, so no cell
    it returns ever holds one: a quoted field that spans two lines comes
    back with the two parts glued, also when [_escape_csv] wrote it. A
    delimiter inside a quoted field is kept. *)
Theorem parse_delimited_drops_line_breaks :
  (forall (text : str) (delimiter : char) (rows : list (list str)),
      _parse_delimited text delimiter = Some rows ->
      Forall (Forall (Forall no_break)) rows)
  /\ _parse_delimited (lit "a," ++ [DQUOTE] ++ lit "b" ++ [LF] ++ lit "c"
                       ++ [DQUOTE] ++ lit ",d") COMMA
     = Some [[lit "a"; lit "bc"; lit "d"]]
  /\ _parse_delimited (_escape_csv (lit "b" ++ [LF] ++ lit "c")) COMMA
     = Some [[lit "bc"]]
  /\ _parse_delimited (lit "a," ++ [DQUOTE] ++ lit "b,c" ++ [DQUOTE] ++ lit ",d")
                      COMMA
     = Some [[lit "a"; lit "b,c"; lit "d"]].
Proof.
  split; [|repeat split; vm_compute; reflexivity].
  intros text delimiter rows H. unfold _parse_delimited, Csv.reader in H.
  eapply records_all; [| |exact H].
  - split; constructor.
  - apply splitlines_no_break.
Qed.

(** ** Pasting rows *)

Section PasteFacts.

Variable str_lower : str -> str.

Lemma str_eqb_eq (a b : str) : str_eqb a b = true <-> a = b.
Proof.
  revert b. induction a as [|x a IH]; intros [|y b]; simpl;
    try (split; [discriminate|congruence]); [tauto|].
  rewrite andb_true_iff, N.eqb_eq, IH. split.
  - intros [-> ->]. reflexivity.
  - intros [= -> ->]. auto.
Qed.

Lemma row_eqb_eq (a b : list str) : row_eqb a b = true <-> a = b.
Proof.
  revert b. induction a as [|x a IH]; intros [|y b]; simpl;
    try (split; [discriminate|congruence]); [tauto|].
  rewrite andb_true_iff, str_eqb_eq, IH. split.
  - intros [-> ->]. reflexivity.
  - intros [= -> ->]. auto.
Qed.

Lemma header_matches_spec (row headers : list str) :
  _header_matches str_lower row headers = true
  <-> Forall2 (fun c h => str_lower (strip c) = str_lower (strip h)) row headers.
Proof.
  unfold _header_matches. rewrite row_eqb_eq.
  revert headers. induction row as [|c row IH]; intros [|h headers]; simpl.
  - split; auto.
  - split; [discriminate|]. intros H. inversion H.
  - split; [discriminate|]. intros H. inversion H.
  - split.
    + intros [= H1 H2]. constructor; auto. now apply IH.
    + intros H. inversion H; subst. f_equal; auto. now apply IH.
Qed.

Hypothesis lower_ascii : forall s, is_ascii s -> str_lower s = ascii_lower s.

Lemma header_matches_ascii (row headers : list str) :
  Forall is_ascii row -> Forall is_ascii headers ->
  _header_matches str_lower row headers = _header_matches ascii_lower row headers.
Proof.
  intros Hr Hh. unfold _header_matches. f_equal.
  - apply map_ext_in. intros c Hc. rewrite Forall_forall in Hr.
    apply lower_ascii, strip_Forall, Hr, Hc.
  - apply map_ext_in. intros c Hc. rewrite Forall_forall in Hh.
    apply lower_ascii, strip_Forall, Hh, Hc.
Qed.

End PasteFacts.

(** C8. [paste_rows] takes the comma parse, and the tab parse in its place
    exactly when the comma parse has at most one row; the first row of the
    parse it takes is left out of the inserted rows exactly when its
    cells, trimmed and lower-cased, equal the heading labels, trimmed and
    lower-cased, one by one; so against the headings [Col A], [Col B] a
    first row [col a], [COL B] is not inserted and a first row [x], [1]
    is. [str_lower] is any case mapping that agrees with the ASCII one on
    ASCII strings. *)
Theorem paste_rows_sniffs_and_skips_header (str_lower : str -> str) :
  (forall s, is_ascii s -> str_lower s = ascii_lower s) ->
  (forall (text : str) (rows : list (list str)),
      _parse_delimited text COMMA = Some rows ->
      (length rows <= 1 -> sniff_and_parse text = _parse_delimited text TAB)
      /\ (1 < length rows -> sniff_and_parse text = Some rows))
  /\ (forall (tree : Tree) (text : str) (row0 : list str) (rest : list (list str)),
         sniff_and_parse text = Some (row0 :: rest) ->
         let cols := length (headings tree) in
         let same :=
           Forall2 (fun c h => str_lower (strip c) = str_lower (strip h))
                   row0 (headings tree) in
         (same ->
          paste_rows str_lower tree (Some text)
          = Pasted (mkTree (headings tree)
                           (items tree ++ map (canon_row cols) rest))
                   (length rest))
         /\ (~ same ->
             paste_rows str_lower tree (Some text)
             = Pasted (mkTree (headings tree)
                              (items tree ++ map (canon_row cols) (row0 :: rest)))
                      (S (length rest))))
  /\ paste_rows str_lower (mkTree [lit "Col A"; lit "Col B"] [])
                (Some (lit " col a ,COL B" ++ [LF] ++ lit "x,1"))
     = Pasted (mkTree [lit "Col A"; lit "Col B"] [[lit "x"; lit "1"]]) 1
  /\ paste_rows str_lower (mkTree [lit "Col A"; lit "Col B"] [])
                (Some (lit "x,1" ++ [LF] ++ lit "y,2"))
     = Pasted (mkTree [lit "Col A"; lit "Col B"]
                      [[lit "x"; lit "1"]; [lit "y"; lit "2"]]) 2.
Proof.
  intros Hlow. split; [|split; [|split]].
  - intros text rows H. unfold sniff_and_parse. rewrite H. split; intros Hl.
    + now apply Nat.leb_le in Hl as ->.
    + apply Nat.leb_gt in Hl. now rewrite Hl.
  - intros tree text row0 rest H cols same. unfold paste_rows. rewrite H.
    fold cols. pose proof (header_matches_spec str_lower row0 (headings tree)) as Hm.
    fold same in Hm.
    destruct (_header_matches str_lower row0 (headings tree)).
    + split; intros Hs.
      * cbn [skipn]. now rewrite length_map.
      * exfalso. apply Hs, Hm. reflexivity.
    + split; intros Hs.
      * apply Hm in Hs. discriminate.
      * cbn [skipn]. rewrite length_map. reflexivity.
  - unfold paste_rows.
    replace (sniff_and_parse (lit " col a ,COL B" ++ [LF] ++ lit "x,1"))
      with (Some [[lit " col a "; lit "COL B"]; [lit "x"; lit "1"]])
      by (vm_compute; reflexivity).
    cbn [headings items].
    rewrite (header_matches_ascii str_lower Hlow)
      by (repeat constructor; vm_compute; reflexivity).
    vm_compute. reflexivity.
  - unfold paste_rows.
    replace (sniff_and_parse (lit "x,1" ++ [LF] ++ lit "y,2"))
      with (Some [[lit "x"; lit "1"]; [lit "y"; lit "2"]])
      by (vm_compute; reflexivity).
    cbn [headings items].
    rewrite (header_matches_ascii str_lower Hlow)
      by (repeat constructor; vm_compute; reflexivity).
    vm_compute. reflexivity.
Qed.

Lemma paste_rows_sniffs_and_skips_header_witness :
  paste_rows ascii_lower (mkTree [lit "Col A"; lit "Col B"] [])
             (Some (lit " col a ,COL B" ++ [LF] ++ lit "x,1"))
  = Pasted (mkTree [lit "Col A"; lit "Col B"] [[lit "x"; lit "1"]]) 1
  /\ paste_rows ascii_lower (mkTree [lit "Col A"; lit "Col B"] [])
                (Some (lit "x,1" ++ [LF] ++ lit "y,2"))
     = Pasted (mkTree [lit "Col A"; lit "Col B"]
                      [[lit "x"; lit "1"]; [lit "y"; lit "2"]]) 2.
Proof.
  apply (paste_rows_sniffs_and_skips_header ascii_lower).
  intros s _. reflexivity.
Defined.

(** A clipboard that holds the header line alone: the comma parse has one
    row, so the tab parse takes its place, and its single cell, which is
    the whole line, is inserted as a data row. *)
Lemma header_line_alone_is_pasted :
  sniff_and_parse (lit "Col A,Col B") = Some [[lit "Col A,Col B"]]
  /\ paste_rows ascii_lower (mkTree [lit "Col A"; lit "Col B"] [])
                (Some (lit "Col A,Col B"))
     = Pasted (mkTree [lit "Col A"; lit "Col B"] [[lit "Col A,Col B"; []]]) 1.
Proof. split; vm_compute; reflexivity. Qed.

(** * Further properties of the code *)

(** ** What the scan finds and what it leaves *)

Section ScanMore.

Lemma scan_sound (fuel : nat) (lines : list str) :
  forall i r, In r (scan fuel lines i) ->
              parse_pipe_table lines (region_start r)
              = (Some (region_table r), region_end r).
Proof.
  induction fuel as [|fuel IH]; intros i r; simpl; [tauto|].
  destruct (i <? length lines); [|intros []].
  destruct (parse_pipe_table lines i) as [[t|] j] eqn:E.
  - intros [<-|H]; [exact E|]. now apply (IH j).
  - apply IH.
Qed.

Lemma scan_complete (fuel : nat) (lines : list str) :
  forall i0 i,
    length lines - i0 <= fuel -> i0 <= i < length lines ->
    (forall r, In r (scan fuel lines i0) ->
               ~ (region_start r <= i < region_end r)) ->
    parse_pipe_table lines i = (None, i).
Proof.
  induction fuel as [|fuel IH]; intros i0 i Hf Hi Hout; [lia|].
  simpl in Hout.
  destruct (Nat.ltb_spec i0 (length lines)) as [Hlt|Hge]; [|lia].
  destruct (parse_pipe_table lines i0) as [[t|] j] eqn:E.
  - pose proof (parse_success _ _ _ _ E) as (_ & Hj & Hjl & _).
    destruct (Nat.lt_ge_cases i j) as [Hij|Hij].
    + exfalso. apply (Hout (i0, j, t)); [now left|].
      unfold region_start, region_end. simpl. lia.
    + apply (IH j); try lia. intros r Hr. apply Hout. now right.
  - destruct (Nat.eq_dec i i0) as [->|Hne].
    + unfold parse_pipe_table in *.
      destruct (length (collect (skipn i0 lines)) <? 2); auto.
      destruct (forallb re_separator _); simpl in *; [discriminate|auto].
    + apply (IH (i0 + 1)); try lia. exact Hout.
Qed.

Lemma scan_nothing (fuel : nat) (lines : list str) :
  (forall i, fst (parse_pipe_table lines i) = None) ->
  forall i, scan fuel lines i = [].
Proof.
  intros Hnone. induction fuel as [|fuel IH]; intros i; simpl; auto.
  destruct (i <? length lines); auto.
  specialize (Hnone i). destruct (parse_pipe_table lines i) as [[t|] j];
    [discriminate|apply IH].
Qed.

Lemma splitlines_Forall_len (P : char -> Prop) (n : nat) (s : str) :
  length s <= n -> Forall P s -> Forall (Forall P) (splitlines s).
Proof.
  revert s. induction n as [|n IH]; intros [|c s] Hn Hs; simpl in *;
    try constructor; try lia.
  inversion Hs as [|? ? Hc Hs']; subst.
  destruct (is_linebreak c).
  - constructor; [constructor|].
    destruct s as [|d s'']; [constructor|].
    destruct ((c =? CR)%N && (d =? LF)%N); apply IH; simpl in *; try lia; auto.
    now inversion Hs'.
  - assert (H : Forall (Forall P) (splitlines s)) by (apply IH; [lia|auto]).
    destruct (splitlines s) as [|l ls].
    + repeat constructor; assumption.
    + inversion H; subst. repeat constructor; assumption.
Qed.

Lemma collect_no_pipe (ls : list str) :
  Forall (Forall (fun c => c <> PIPE)) ls -> collect ls = [].
Proof.
  destruct 1 as [|l ls Hl Hls]; simpl; auto.
  unfold is_table_line.
  destruct (contains PIPE (rstrip_nl l)) eqn:E; auto.
  apply contains_In in E. apply (rstrip_nl_Forall _ l) in Hl.
  rewrite Forall_forall in Hl. now apply Hl in E.
Qed.

End ScanMore.

(** X1. Every region of [find_tables] is what [parse_pipe_table] returns at
    the region's start line: its table and its end. *)
Theorem find_tables_sound (text : str) (r : region) :
  In r (find_tables text) ->
  parse_pipe_table (splitlines text) (region_start r)
  = (Some (region_table r), region_end r).
Proof. apply scan_sound. Qed.

Lemma find_tables_sound_witness :
  parse_pipe_table (splitlines sample_text) 0 = (Some sample_table, 4).
Proof.
  apply (find_tables_sound sample_text (0, 4, sample_table)).
  vm_compute. left. reflexivity.
Defined.

(** X2. At every line of the text that lies in no region of [find_tables],
    no table starts: [parse_pipe_table] fails there. *)
Theorem find_tables_complete (text : str) (i : nat) :
  i < length (splitlines text) ->
  (forall r, In r (find_tables text) ->
             ~ (region_start r <= i < region_end r)) ->
  parse_pipe_table (splitlines text) i = (None, i).
Proof.
  intros Hi Hout.
  apply (scan_complete (length (splitlines text)) (splitlines text) 0 i);
    try lia. exact Hout.
Qed.

Lemma find_tables_complete_witness :
  parse_pipe_table (splitlines (lit "intro" ++ [LF] ++ sample_text)) 0 = (None, 0).
Proof.
  apply (find_tables_complete (lit "intro" ++ [LF] ++ sample_text) 0).
  - vm_compute. lia.
  - vm_compute. intros r [<-|[]]. simpl. lia.
Defined.

(** X3. A text without a pipe has no table. *)
Theorem find_tables_no_pipe (text : str) :
  ~ In PIPE text -> find_tables text = [].
Proof.
  intros H. unfold find_tables, find_tables_lines. apply scan_nothing.
  intros i. unfold parse_pipe_table.
  rewrite collect_no_pipe; [reflexivity|].
  apply Forall_skipn_str.
  apply (splitlines_Forall_len _ (length text)); [lia|].
  apply Forall_forall. intros c Hc ->. contradiction.
Qed.

Lemma find_tables_no_pipe_witness :
  find_tables (lit "# Title" ++ [LF] ++ lit "some text") = [].
Proof.
  apply find_tables_no_pipe. vm_compute. intuition discriminate.
Defined.

(** ** Shape of a parsed table *)

Lemma split_row_nonempty (line : str) : split_row line <> [].
Proof.
  unfold split_row. intros H. apply map_eq_nil in H.
  now apply split_not_nil in H.
Qed.

(** X4. A table that [parse_pipe_table] returns has at least one header
    cell, one alignment and one cell in every row, so the label
    [detect_tables] gives it is its number and its header cells joined by
    [ | ]: the [Table n] label is never used for a table that was found. *)
Theorem parsed_table_not_empty
    (lines : list str) (start j : nat) (t : MarkdownTable) :
  parse_pipe_table lines start = (Some t, j) ->
  header t <> [] /\ aligns t <> [] /\ Forall (fun r => r <> []) (rows t)
  /\ forall idx, table_label idx t
                 = str_of_nat (idx + 1) ++ lit ": " ++ join (lit " | ") (header t).
Proof.
  intros H.
  assert (Hh : header t <> []).
  { apply parse_success in H as (_ & _ & _ & -> & _). apply split_row_nonempty. }
  repeat split; auto.
  - unfold parse_pipe_table in H.
    destruct (length (collect (skipn start lines)) <? 2); [discriminate|].
    destruct (forallb re_separator _); [|discriminate].
    injection H as <- _. simpl. intros E. apply map_eq_nil in E.
    now apply split_row_nonempty in E.
  - apply parse_success in H as (_ & _ & _ & _ & ->).
    apply Forall_map, Forall_forall. intros l _. apply split_row_nonempty.
  - intros idx. unfold table_label. now destruct (header t).
Qed.

Lemma parsed_table_not_empty_witness :
  header sample_table <> [] /\ aligns sample_table <> []
  /\ Forall (fun r => r <> []) (rows sample_table)
  /\ forall idx, table_label idx sample_table
                 = str_of_nat (idx + 1) ++ lit ": "
                   ++ join (lit " | ") (header sample_table).
Proof.
  apply (parsed_table_not_empty (splitlines sample_text) 0 4 sample_table).
  vm_compute. reflexivity.
Defined.

(** ** Shape of a rendering *)

Section Widths.

Lemma nth_map_seq (f : nat -> nat) (cols i : nat) :
  i < cols -> nth i (map f (seq 0 cols)) 0 = f i.
Proof.
  intros Hi. rewrite (nth_indep _ 0 (f 0)) by (now rewrite length_map, length_seq).
  now rewrite map_nth, seq_nth.
Qed.

Lemma nth_widen (cols : nat) (w : list nat) (r : list str) (i : nat) :
  i < cols ->
  nth i (widen cols w r) 0 = Nat.max (nth i w 0) (length (cell_at r i)).
Proof. intros Hi. unfold widen. now rewrite nth_map_seq. Qed.

Lemma fold_widen_ge (cols : nat) (rs : list (list str)) :
  forall (w : list nat) (i : nat),
    i < cols -> nth i w 0 <= nth i (fold_left (widen cols) rs w) 0.
Proof.
  induction rs as [|r rs IH]; intros w i Hi; simpl; auto.
  etransitivity; [|apply IH, Hi]. rewrite nth_widen by assumption. lia.
Qed.

Lemma fold_widen_cell (cols : nat) (rs : list (list str)) :
  forall (w : list nat) (r : list str) (i : nat),
    i < cols -> In r rs ->
    length (cell_at r i) <= nth i (fold_left (widen cols) rs w) 0.
Proof.
  induction rs as [|r0 rs IH]; intros w r i Hi Hin; simpl; [destruct Hin|].
  destruct Hin as [->|Hin]; [|now apply IH].
  etransitivity; [|apply fold_widen_ge, Hi]. rewrite nth_widen by assumption. lia.
Qed.

(** No rendered cell is longer than the width of its column. *)
Lemma col_widths_bound (t : MarkdownTable) (r : list str) (i : nat) :
  i < length (header t) -> r = header t \/ In r (rows t) ->
  length (cell_at r i) <= nth i (col_widths t) 0.
Proof.
  intros Hi [->|Hin]; unfold col_widths.
  - etransitivity; [|apply fold_widen_ge, Hi].
    unfold cell_at. change 0 with (length (@nil char)) at 1.
    now rewrite map_nth.
  - now apply fold_widen_cell.
Qed.

Lemma join_length_ext (sep : str) (p1 : list str) :
  forall p2, map (@length char) p1 = map (@length char) p2 ->
             length (join sep p1) = length (join sep p2).
Proof.
  induction p1 as [|a p1 IH]; intros [|b p2] H; try discriminate; auto.
  injection H as Hab H. specialize (IH p2 H).
  destruct p1 as [|a' p1], p2 as [|b' p2]; try discriminate; simpl in *; auto.
  rewrite !length_app. simpl in IH. lia.
Qed.

Lemma fmt_cell_length (widths : list nat) (cells : list str) (i : nat) :
  length (cell_at cells i) <= nth i widths 0 ->
  length (fmt_cell widths cells i) = nth i widths 0 + 2.
Proof.
  intros H. unfold fmt_cell, ljust. simpl.
  rewrite !length_app, repeat_length. simpl. lia.
Qed.

Lemma fmt_align_length (al : list align) (widths : list nat) (i : nat) :
  length (fmt_align al widths i) = nth i widths 0 + 2.
Proof.
  unfold fmt_align. destruct (nth i al a_left); simpl;
    rewrite ?length_app, ?repeat_length; simpl; lia.
Qed.

Lemma fmt_row_length (t : MarkdownTable) (r : list str) :
  r = header t \/ In r (rows t) ->
  length (fmt_row (length (header t)) (col_widths t) r)
  = length (fmt_sep (length (header t)) (aligns t) (col_widths t)).
Proof.
  intros Hr. unfold fmt_row, fmt_sep. rewrite !length_app. do 2 f_equal.
  apply join_length_ext. rewrite !map_map. apply map_ext_in.
  intros i Hi. apply in_seq in Hi.
  rewrite fmt_align_length. apply fmt_cell_length, col_widths_bound; [lia|auto].
Qed.

Lemma fmt_row_no_break (cols : nat) (widths : list nat) (cells : list str) :
  Forall (Forall no_break) (canon_row cols cells) ->
  Forall no_break (fmt_row cols widths cells).
Proof.
  intros H. rewrite fmt_row_bars. apply bars_no_break.
  apply Forall_map, Forall_forall. intros i Hi.
  apply fmt_cell_Forall; [reflexivity|].
  rewrite Forall_forall in H. apply H. unfold canon_row. now apply in_map.
Qed.

Lemma Forall_last_str (P : str -> Prop) (ls : list str) :
  Forall P ls -> ls <> [] -> P (last ls []).
Proof.
  induction 1 as [|l ls Hl Hls IH]; [congruence|].
  intros _. destruct ls as [|l' ls]; [exact Hl|].
  apply IH. discriminate.
Qed.

End Widths.

(** X5. The rendering is aligned: all the lines [to_markdown] joins, the
    header row, the separator row and every data row, have the same
    length. *)
Theorem to_markdown_lines_same_length (t : MarkdownTable) (l1 l2 : str) :
  In l1 (md_lines t) -> In l2 (md_lines t) -> length l1 = length l2.
Proof.
  assert (H : forall l, In l (md_lines t) ->
                        length l = length (fmt_sep (length (header t)) (aligns t)
                                                   (col_widths t))).
  { intros l [<-|[<-|Hl]].
    - apply fmt_row_length. now left.
    - reflexivity.
    - apply in_map_iff in Hl as (r & <- & Hr). apply fmt_row_length. now right. }
  intros H1 H2. now rewrite (H l1 H1), (H l2 H2).
Qed.

Lemma to_markdown_lines_same_length_witness :
  length (lit "| Col A | Col B |") = length (lit "| one   | 1     |").
Proof.
  apply (to_markdown_lines_same_length sample_table);
    vm_compute; auto.
Defined.

Lemma splitlines_md_lines (t : MarkdownTable) :
  Forall (Forall no_break) (header t) ->
  Forall (fun r => Forall (Forall no_break) (canon_row (length (header t)) r))
         (rows t) ->
  splitlines (to_markdown t) = md_lines t.
Proof.
  intros Hh Hr. unfold to_markdown. apply splitlines_join.
  - unfold md_lines. constructor; [|constructor].
    + apply fmt_row_no_break. now rewrite canon_row_id.
    + apply bars_no_break, fmt_sep_parts.
    + apply Forall_map. eapply Forall_impl; [|exact Hr].
      intros r. apply fmt_row_no_break.
  - apply (Forall_last_str (fun l => l <> [])); [|discriminate].
    unfold md_lines. constructor; [discriminate|].
    constructor; [discriminate|].
    apply Forall_map, Forall_forall. intros r _. discriminate.
Qed.

(** X6. When no rendered cell holds a line boundary, the text of
    [to_markdown] splits into exactly the lines it joined: two lines and
    one more for every row, whatever the cells are otherwise. *)
Theorem to_markdown_line_count (t : MarkdownTable) :
  Forall (Forall no_break) (header t) ->
  Forall (fun r => Forall (Forall no_break) (canon_row (length (header t)) r))
         (rows t) ->
  splitlines (to_markdown t) = md_lines t
  /\ length (splitlines (to_markdown t)) = 2 + length (rows t).
Proof.
  intros Hh Hr. rewrite splitlines_md_lines by assumption.
  split; [reflexivity|]. unfold md_lines. simpl. now rewrite length_map.
Qed.

Lemma to_markdown_line_count_witness :
  splitlines (to_markdown (mkTable [lit "a|b"] [] [[lit " x "; lit "y"]]))
  = md_lines (mkTable [lit "a|b"] [] [[lit " x "; lit "y"]])
  /\ length (splitlines (to_markdown (mkTable [lit "a|b"] [] [[lit " x "; lit "y"]])))
     = 2 + 1.
Proof.
  apply (to_markdown_line_count (mkTable [lit "a|b"] [] [[lit " x "; lit "y"]]));
    repeat constructor.
Defined.

(** X7. [to_markdown] reads a table through its header columns only: two
    tables with the same header, the same cells in those columns (a missing
    cell counting as empty) and the same alignments there (a missing one
    counting as left) have the same rendering. *)
Theorem to_markdown_reads_header_columns (t t' : MarkdownTable) :
  canon t' = canon t -> to_markdown t' = to_markdown t.
Proof.
  intros H. rewrite <- (to_markdown_canon t'), H. apply to_markdown_canon.
Qed.

Lemma to_markdown_reads_header_columns_witness :
  to_markdown (mkTable [lit "a"; lit "b"] [] [[lit "1"]; [lit "2"; lit "3"; lit "4"]])
  = to_markdown (mkTable [lit "a"; lit "b"] [a_left; a_left; a_right]
                         [[lit "1"; []]; [lit "2"; lit "3"]]).
Proof.
  apply to_markdown_reads_header_columns. vm_compute. reflexivity.
Defined.

(** ** A column too narrow for its separator *)

Section Narrow.

Lemma re_separator_narrow (l : bool) (n : nat) (r : bool) :
  n < 2 -> re_separator (sep_cell l n r) = false.
Proof.
  intros Hn. destruct n as [|[|n]]; [| |lia]; destruct l, r; reflexivity.
Qed.

Lemma re_separator_length (s : str) : re_separator s = true -> 2 <= length s.
Proof.
  intros H. apply re_separator_shape in H as (l & n & r & nl & Hn & ->).
  unfold sep_cell. rewrite !length_app, repeat_length. lia.
Qed.

Lemma fmt_align_trimmed (al : list align) (widths : list nat) (i : nat) :
  trimmed (fmt_align al widths i) = true.
Proof.
  rewrite fmt_align_shape. destruct (nth i al a_left); simpl colon_left;
    simpl colon_right; simpl dashes.
  - apply sep_cell_trimmed. lia.
  - apply sep_cell_trimmed. lia.
  - unfold trimmed. rewrite sep_cell_rev. reflexivity.
Qed.

Lemma fmt_sep_cells (cols : nat) (al : list align) (widths : list nat) :
  cols <> 0 ->
  split_row (fmt_sep cols al widths) = map (fmt_align al widths) (seq 0 cols).
Proof.
  intros Hc.
  change (fmt_sep cols al widths) with (bars (map (fmt_align al widths) (seq 0 cols))).
  rewrite bars_split_row; [|now apply seq_not_nil|apply fmt_sep_parts].
  rewrite map_map. apply map_ext. intros i. apply strip_id, fmt_align_trimmed.
Qed.

Lemma md_lines_table_lines (t : MarkdownTable) :
  Forall (fun l => rstrip_nl l = l /\ is_table_line l = true) (md_lines t).
Proof.
  unfold md_lines. constructor; [|constructor].
  - rewrite fmt_row_bars. split; [apply bars_rstrip_nl|apply bars_table_line].
  - split; [apply bars_rstrip_nl|apply bars_table_line].
  - apply Forall_map, Forall_forall. intros r _. rewrite fmt_row_bars.
    split; [apply bars_rstrip_nl|apply bars_table_line].
Qed.

Lemma Forall_skipn_lines (P : str -> Prop) (ls : list str) (n : nat) :
  Forall P ls -> Forall P (skipn n ls).
Proof.
  intros H. revert n. induction H as [|l ls Hl Hls IH]; intros [|n]; simpl; auto.
Qed.

Lemma forallb_seq_false (f : nat -> bool) (l : list nat) :
  forallb f l = false -> exists i, In i l /\ f i = false.
Proof.
  induction l as [|a l IH]; simpl; [discriminate|].
  intros H. apply andb_false_iff in H as [H|H].
  - exists a. auto.
  - destruct (IH H) as (i & Hi & E). exists i. auto.
Qed.

Lemma clean_table_spec (t : MarkdownTable) :
  clean_table t = true ->
  length (header t) <> 0
  /\ forallb clean_cell (header t) = true
  /\ Forall (fun r => forallb clean_cell (canon_row (length (header t)) r) = true)
            (rows t).
Proof.
  unfold clean_table. intros H.
  apply andb_prop in H as [H H3]. apply andb_prop in H as [H1 H2].
  repeat split; auto.
  - apply negb_true_iff, Nat.eqb_neq in H1. exact H1.
  - apply Forall_forall. now apply forallb_forall.
Qed.

Lemma clean_cells_no_break (cells : list str) :
  forallb clean_cell cells = true -> Forall (Forall no_break) cells.
Proof.
  intros H. apply Forall_forall. intros c Hc.
  rewrite forallb_forall in H. now destruct (clean_cell_spec c (H c Hc)) as (_ & _ & ?).
Qed.

(** With a narrow column, no start line of the rendering gives a table. *)
Lemma narrow_parse_fails (t : MarkdownTable) (k : nat) :
  clean_table t = true -> wide_enough t = false ->
  parse_pipe_table (md_lines t) k = (None, k).
Proof.
  intros Hc Hw. destruct (clean_table_spec t Hc) as (Hcols & Hh & Hr).
  apply forallb_seq_false in Hw as (i0 & Hi0 & Hd).
  apply Nat.leb_gt in Hd. pose proof Hi0 as Hlt. apply in_seq in Hlt.
  unfold parse_pipe_table.
  rewrite collect_id by (apply Forall_skipn_lines, md_lines_table_lines).
  destruct (Nat.ltb_spec (length (skipn k (md_lines t))) 2) as [|Hlen]; auto.
  rewrite nth_skipn.
  assert (Hbad : forallb re_separator (split_row (nth (k + 1) (md_lines t) [])) = false).
  { rewrite length_skipn in Hlen.
    assert (Hl : length (md_lines t) = 2 + length (rows t))
      by (unfold md_lines; simpl; now rewrite length_map).
    destruct k as [|k].
    - unfold md_lines. cbn [Nat.add nth]. rewrite fmt_sep_cells by assumption.
      apply forallb_false_ex. exists (fmt_align (aligns t) (col_widths t) i0).
      split; [now apply in_map|].
      rewrite fmt_align_shape. now apply re_separator_narrow.
    - unfold md_lines. replace (S k + 1) with (S (S k)) by lia. cbn [nth].
      set (r := nth k (rows t) []).
      assert (Hin : In r (rows t)) by (apply nth_In; lia).
      rewrite (nth_indep _ [] (fmt_row (length (header t)) (col_widths t) []))
        by (rewrite length_map; lia).
      rewrite (map_nth (fmt_row (length (header t)) (col_widths t))).
      fold r. rewrite Forall_forall in Hr.
      rewrite fmt_row_split_row by auto.
      apply forallb_false_ex. exists (cell_at r i0).
      split; [unfold canon_row; now apply in_map|].
      destruct (re_separator (cell_at r i0)) eqn:E; auto.
      apply re_separator_length in E.
      pose proof (col_widths_bound t r i0 (proj2 Hlt) (or_intror Hin)) as Hb.
      destruct (nth i0 (aligns t) a_left); simpl in Hd; lia. }
  replace (1 + k) with (k + 1) by lia. now rewrite Hbad.
Qed.

End Narrow.

(** X8. The separator [to_markdown] writes for a column too narrow for two
    dashes is one its own parser rejects: for a table with a header that is
    not empty and clean cells, but a column of width 0, or of width 1 and
    centered, [find_tables] finds nothing in the rendering. With C1, such a
    table is found again exactly when its columns are wide enough. *)
Theorem narrow_column_hides_table (t : MarkdownTable) :
  clean_table t = true -> wide_enough t = false ->
  find_tables (to_markdown t) = []
  /\ renderable t = false.
Proof.
  intros Hc Hw. split.
  - destruct (clean_table_spec t Hc) as (_ & Hh & Hr).
    unfold find_tables.
    rewrite splitlines_md_lines.
    + apply scan_nothing. intros k. now rewrite narrow_parse_fails.
    + now apply clean_cells_no_break.
    + eapply Forall_impl; [|exact Hr]. intros r. apply clean_cells_no_break.
  - change (renderable t) with (clean_table t && wide_enough t).
    now rewrite Hc, Hw.
Qed.

Lemma narrow_column_hides_table_witness :
  find_tables (to_markdown (mkTable [lit "n"; lit "name"] [a_center; a_left]
                                    [[lit "1"; lit "ada"]])) = []
  /\ renderable (mkTable [lit "n"; lit "name"] [a_center; a_left]
                         [[lit "1"; lit "ada"]]) = false.
Proof.
  apply narrow_column_hides_table; vm_compute; reflexivity.
Defined.

(** ** Matching a pasted row against the headings *)

Section StripMore.

Lemma drop_while_app_stop (p : char -> bool) (x y : str) :
  drop_while p x <> [] -> drop_while p (x ++ y) = drop_while p x ++ y.
Proof.
  induction x as [|c x IH]; simpl; [congruence|].
  destruct (p c); auto.
Qed.

Lemma drop_while_forallb (p : char -> bool) (x : str) :
  drop_while p x = [] -> forallb p x = true.
Proof.
  induction x as [|c x IH]; simpl; auto.
  destruct (p c); [auto|discriminate].
Qed.

(** White space around a string does not change what [strip] returns. *)
Lemma strip_pad (a s b : str) :
  forallb is_space a = true -> forallb is_space b = true ->
  strip (a ++ s ++ b) = strip s.
Proof.
  intros Ha Hb. unfold strip, lstrip, rstrip.
  rewrite !rev_app_distr, <- app_assoc.
  rewrite drop_while_app_all by (now rewrite forallb_rev).
  destruct (drop_while is_space (rev s)) as [|c u] eqn:E.
  - rewrite (drop_while_app_all is_space (rev s) (rev a))
      by (now apply drop_while_forallb).
    rewrite (drop_while_all is_space (rev a)) by (now rewrite forallb_rev).
    reflexivity.
  - rewrite (drop_while_app_stop is_space (rev s) (rev a))
      by (rewrite E; discriminate).
    rewrite E, rev_app_distr, rev_involutive.
    now rewrite drop_while_app_all.
Qed.

End StripMore.

(** X9. [_header_matches] holds of a row against itself, does not depend
    on the order of its two arguments, fails whenever the two have different
    numbers of cells, and does not see white space added around the cells
    of the row; this for any case mapping [str_lower]. *)
Theorem header_matches_properties (str_lower : str -> str) :
  (forall hs, _header_matches str_lower hs hs = true)
  /\ (forall row hs,
         _header_matches str_lower row hs = _header_matches str_lower hs row)
  /\ (forall row hs,
         length row <> length hs -> _header_matches str_lower row hs = false)
  /\ (forall row hs a b,
         forallb is_space a = true -> forallb is_space b = true ->
         _header_matches str_lower (map (fun c => a ++ c ++ b) row) hs
         = _header_matches str_lower row hs).
Proof.
  repeat split.
  - intros hs. unfold _header_matches. now apply row_eqb_eq.
  - intros row hs. unfold _header_matches.
    set (x := map _ row). set (y := map _ hs).
    destruct (row_eqb x y) eqn:E1, (row_eqb y x) eqn:E2; auto.
    + apply row_eqb_eq in E1. symmetry in E1. apply row_eqb_eq in E1. congruence.
    + apply row_eqb_eq in E2. symmetry in E2. apply row_eqb_eq in E2. congruence.
  - intros row hs Hl. unfold _header_matches.
    destruct (row_eqb _ _) eqn:E; auto.
    apply row_eqb_eq in E. apply (f_equal (@length str)) in E.
    rewrite !length_map in E. contradiction.
  - intros row hs a b Ha Hb. unfold _header_matches. f_equal.
    rewrite map_map. apply map_ext. intros c. now rewrite strip_pad.
Qed.

(** ** What [paste_rows] does to the grid *)

(** X10. Whatever the clipboard holds, when [paste_rows] inserts rows it
    leaves the headings and the items that were there as they are, appends
    the new rows after them, gives every new row exactly one cell per
    column, and counts exactly the rows it appended. *)
Theorem paste_rows_appends (str_lower : str -> str) (tree tree' : Tree)
    (clipboard : option str) (count : nat) :
  paste_rows str_lower tree clipboard = Pasted tree' count ->
  headings tree' = headings tree
  /\ exists new,
       items tree' = items tree ++ new
       /\ length new = count
       /\ Forall (fun r => length r = length (headings tree)) new.
Proof.
  unfold paste_rows. destruct clipboard as [text|]; [|discriminate].
  destruct (sniff_and_parse text) as [[|row0 rest]|]; try discriminate.
  intros [= <- <-]. split; [reflexivity|].
  eexists. repeat split. apply Forall_map, Forall_forall.
  intros r _. unfold canon_row. now rewrite length_map, length_seq.
Qed.

Lemma paste_rows_appends_witness :
  headings (mkTree [lit "a"; lit "b"] [[lit "1"; lit "2"]; [lit "x"; []]])
  = headings (mkTree [lit "a"; lit "b"] [[lit "1"; lit "2"]])
  /\ exists new,
       items (mkTree [lit "a"; lit "b"] [[lit "1"; lit "2"]; [lit "x"; []]])
       = items (mkTree [lit "a"; lit "b"] [[lit "1"; lit "2"]]) ++ new
       /\ length new = 1
       /\ Forall (fun r => length r = length (headings (mkTree [lit "a"; lit "b"]
                                                             [[lit "1"; lit "2"]])))
                 new.
Proof.
  apply (paste_rows_appends ascii_lower _ _ (Some (lit "a,b" ++ [LF] ++ lit "x"))).
  vm_compute. reflexivity.
Defined.

(** ** Reading back the CSV text of [_clipboard_copy] *)

Section CsvRoundTrip.

Import Csv.

Lemma feed_app (d : char) (a b : str) :
  forall r, feed d r (a ++ b)
            = match feed d r a with
              | Some r' => feed d r' b
              | None => None
              end.
Proof.
  induction a as [|c a IH]; intros r; simpl; auto.
  destruct (parse_process_char d r (Chr c)); auto.
Qed.

Lemma add_char_ok (r : ReaderObj) (c : char) :
  (N.of_nat (length (field r)) < field_limit)%N ->
  parse_add_char r c = Some (mkReader (state r) (fields r) (field r ++ [c])).
Proof.
  intros H. unfold parse_add_char.
  destruct (N.leb_spec field_limit (N.of_nat (length (field r)))); [lia|reflexivity].
Qed.

Lemma plain_tests (x : char) :
  plain x ->
  is_nl x = false /\ (x =? DQUOTE)%N = false /\ (x =? COMMA)%N = false.
Proof.
  intros (H1 & H2 & H3 & H4). unfold is_nl.
  repeat split; try (apply orb_false_iff; split); now apply N.eqb_neq.
Qed.

Lemma feed_in_field (s : str) :
  forall F f,
    Forall plain s -> (N.of_nat (length f + length s) <= field_limit)%N ->
    feed COMMA (mkReader IN_FIELD F f) s = Some (mkReader IN_FIELD F (f ++ s)).
Proof.
  induction s as [|x s IH]; intros F f Hs Hl; simpl.
  - now rewrite app_nil_r.
  - inversion Hs as [|? ? Hx Hs']; subst.
    destruct (plain_tests x Hx) as (E1 & E2 & E3).
    unfold parse_process_char. cbn [state]. rewrite E1, E3.
    rewrite add_char_ok by (simpl in *; lia). cbn [state fields field].
    rewrite IH; auto.
    + now rewrite <- app_assoc.
    + rewrite length_app. simpl in *. lia.
Qed.

Lemma feed_in_quoted (c : str) :
  forall F f,
    (N.of_nat (length f + length c) <= field_limit)%N ->
    feed COMMA (mkReader IN_QUOTED_FIELD F f) (double_char DQUOTE c)
    = Some (mkReader IN_QUOTED_FIELD F (f ++ c)).
Proof.
  induction c as [|x c IH]; intros F f Hl.
  - simpl. now rewrite app_nil_r.
  - assert (Hf : (N.of_nat (length f) < field_limit)%N) by (simpl in Hl; lia).
    assert (Hnext : (N.of_nat (length (f ++ [x]) + length c) <= field_limit)%N)
      by (rewrite length_app; simpl in *; lia).
    unfold double_char. cbn [flat_map]. fold (double_char DQUOTE c).
    destruct (N.eqb_spec x DQUOTE) as [->|Hx].
    + cbn [app feed]. unfold parse_process_char at 1. cbn [state].
      rewrite N.eqb_refl. unfold set_state. cbn [fields field].
      unfold parse_process_char at 1. cbn [state]. rewrite N.eqb_refl.
      rewrite add_char_ok by exact Hf. cbn [option_map state fields field].
      unfold set_state. cbn [fields field].
      rewrite IH by exact Hnext. now rewrite <- app_assoc.
    + cbn [app feed]. unfold parse_process_char at 1. cbn [state].
      apply N.eqb_neq in Hx. rewrite Hx.
      rewrite add_char_ok by exact Hf. cbn [state fields field].
      rewrite IH by exact Hnext. now rewrite <- app_assoc.
Qed.

End CsvRoundTrip.

Section CsvRows.

Import Csv.

Lemma csv_cell_ok_spec (c : str) :
  csv_cell_ok c = true ->
  Forall no_break c /\ (N.of_nat (length c) <= field_limit)%N.
Proof.
  unfold csv_cell_ok. intros H. apply andb_prop in H as [H1 H2]. split.
  - apply Forall_forall. intros x Hx. rewrite forallb_forall in H1.
    apply H1 in Hx. now apply negb_true_iff in Hx.
  - now apply N.leb_le.
Qed.

Lemma unquoted_plain (c : str) :
  existsb (fun ch => contains ch c) [COMMA; DQUOTE; LF; CR] = false ->
  Forall plain c.
Proof.
  simpl. rewrite !orb_false_iff. intros (H1 & H2 & H3 & H4 & _).
  apply Forall_forall. intros x Hx. unfold plain.
  repeat split; intros ->.
  - apply contains_In in Hx. congruence.
  - apply contains_In in Hx. congruence.
  - apply contains_In in Hx. congruence.
  - apply contains_In in Hx. congruence.
Qed.

Lemma feed_cell (r : ReaderObj) (c : str) :
  fresh r -> csv_cell_ok c = true ->
  exists r', feed COMMA r (_escape_csv c) = Some r' /\ after_cell r c r'.
Proof.
  intros [Hf Hst] Hc. apply csv_cell_ok_spec in Hc as [_ Hl].
  destruct r as [st F f]. simpl in Hf, Hst. subst f.
  unfold _escape_csv.
  destruct (existsb (fun ch => contains ch c) [COMMA; DQUOTE; LF; CR]) eqn:E.
  - exists (mkReader QUOTE_IN_QUOTED_FIELD F c). split.
    + cbn [app feed].
      assert (H1 : parse_process_char COMMA (mkReader st F []) (Chr DQUOTE)
                   = Some (mkReader IN_QUOTED_FIELD F [])).
      { destruct Hst as [-> | ->]; reflexivity. }
      rewrite H1, feed_app, feed_in_quoted by exact Hl.
      reflexivity.
    + unfold after_cell. simpl. intuition auto.
  - apply unquoted_plain in E. destruct c as [|x c].
    + exists (mkReader st F []). split; [reflexivity|].
      unfold after_cell. simpl. intuition auto.
    + exists (mkReader IN_FIELD F (x :: c)). split.
      * inversion E as [|? ? Hx Hc']; subst.
        destruct (plain_tests x Hx) as (E1 & E2 & E3).
        cbn [feed].
        assert (H1 : parse_process_char COMMA (mkReader st F []) (Chr x)
                     = Some (mkReader IN_FIELD F [x])).
        { destruct Hst as [-> | ->]; unfold parse_process_char, start_field;
            cbn [state set_state fields field]; rewrite E1, ?E2, ?E3;
            cbn [state set_state fields field]; rewrite ?E1, ?E2, ?E3;
            reflexivity. }
        rewrite H1. rewrite feed_in_field; auto; simpl in *; lia.
      * unfold after_cell. simpl. intuition auto.
Qed.

Lemma step_delimiter (r r' : ReaderObj) (c : str) :
  fresh r -> after_cell r c r' ->
  parse_process_char COMMA r' (Chr COMMA)
  = Some (mkReader START_FIELD (fields r ++ [c]) []).
Proof.
  intros [Hf Hst] (HF & Hc & Hs). destruct r' as [st' F' f']. simpl in *. subst.
  destruct Hs as [-> | [-> | [-> ->]]]; try reflexivity.
  destruct Hst as [-> | ->]; reflexivity.
Qed.

Lemma step_end_of_line (r r' : ReaderObj) (c : str) :
  fresh r -> after_cell r c r' -> state r = START_FIELD \/ c <> [] ->
  parse_process_char COMMA r' EOL
  = Some (mkReader START_RECORD (fields r ++ [c]) []).
Proof.
  intros [Hf Hst] (HF & Hc & Hs) Hne. destruct r' as [st' F' f']. simpl in *. subst.
  destruct Hs as [-> | [-> | [-> ->]]]; try reflexivity.
  destruct Hne as [-> | Hne]; [reflexivity|congruence].
Qed.

Lemma feed_cells (cs : list str) :
  forall r,
    fresh r -> forallb csv_cell_ok cs = true -> cs <> [] ->
    state r = START_FIELD \/ cs <> [[]] ->
    exists r1, feed COMMA r (csv_line cs) = Some r1
               /\ parse_process_char COMMA r1 EOL
                  = Some (mkReader START_RECORD (fields r ++ cs) []).
Proof.
  induction cs as [|c cs IH]; intros r Hr Hok Hne Hst; [congruence|].
  simpl in Hok. apply andb_prop in Hok as [Hc Hcs].
  destruct (feed_cell r c Hr Hc) as (r' & Hfeed & Hafter).
  destruct cs as [|c2 cs].
  - exists r'. split; [exact Hfeed|].
    apply (step_end_of_line r); auto.
    destruct Hst as [H|H]; [now left|]. right. intros ->. now apply H.
  - unfold csv_line. cbn [map join].
    change (join [COMMA] (_escape_csv c2 :: map _escape_csv cs))
      with (csv_line (c2 :: cs)).
    rewrite feed_app, Hfeed. cbn [app feed].
    rewrite (step_delimiter r r' c Hr Hafter).
    destruct (IH (mkReader START_FIELD (fields r ++ [c]) [])) as (r1 & H1 & H2);
      auto; try discriminate.
    + split; simpl; auto.
    + exists r1. split; [exact H1|]. rewrite H2. simpl.
      now rewrite <- app_assoc.
Qed.

Lemma records_csv_lines (rows : list (list str)) :
  Forall csv_row_ok rows ->
  records COMMA reset (map csv_line rows) = Some rows.
Proof.
  induction 1 as [|r rows [Hok Hne] Hrows IH]; [reflexivity|].
  cbn [map records]. destruct r as [|c cs].
  - cbn. rewrite IH. reflexivity.
  - destruct (feed_cells (c :: cs) reset) as (r1 & H1 & H2); auto;
      try discriminate.
    + split; simpl; auto.
    + rewrite H1, H2. cbn [state fields]. rewrite IH. reflexivity.
Qed.

Lemma escape_csv_no_break (c : str) :
  Forall no_break c -> Forall no_break (_escape_csv c).
Proof.
  intros H. unfold _escape_csv. destruct (existsb _ _); auto.
  constructor; [reflexivity|]. apply Forall_app. split; [|repeat constructor].
  unfold double_char. apply Forall_flat_map, Forall_forall. intros x Hx.
  rewrite Forall_forall in H. specialize (H x Hx).
  destruct (x =? DQUOTE)%N; repeat constructor; auto.
Qed.

Lemma escape_csv_nil (c : str) : _escape_csv c = [] -> c = [].
Proof.
  unfold _escape_csv. destruct (existsb _ _); [discriminate|auto].
Qed.

Lemma csv_line_no_break (r : list str) :
  forallb csv_cell_ok r = true -> Forall no_break (csv_line r).
Proof.
  unfold csv_line. induction r as [|c r IH]; simpl; [constructor|].
  intros H. apply andb_prop in H as [Hc Hr].
  apply csv_cell_ok_spec in Hc as [Hc _].
  destruct r as [|c2 r]; [now apply escape_csv_no_break|].
  apply Forall_app. split; [now apply escape_csv_no_break|].
  constructor; [reflexivity|]. now apply IH.
Qed.

Lemma csv_line_nil (r : list str) : csv_line r = [] -> r = [] \/ r = [[]].
Proof.
  unfold csv_line. destruct r as [|c [|c2 r]]; simpl; auto.
  - intros H. apply escape_csv_nil in H as ->. auto.
  - intros H. apply app_eq_nil in H as [_ H]. discriminate.
Qed.

Lemma last_map_csv (rows : list (list str)) :
  rows <> [] -> last (map csv_line rows) [] = csv_line (last rows []).
Proof.
  induction rows as [|r rows IH]; [congruence|]. intros _.
  destruct rows as [|r2 rows]; [reflexivity|].
  change (last (map csv_line (r :: r2 :: rows)) [])
    with (last (map csv_line (r2 :: rows)) []).
  rewrite IH by discriminate. reflexivity.
Qed.

Lemma parse_clipboard_csv (headers : list str) (rows : list (list str)) :
  Forall csv_row_ok (headers :: rows) -> last (headers :: rows) [] <> [] ->
  _parse_delimited (_clipboard_copy headers rows fmt_csv) COMMA
  = Some (headers :: rows).
Proof.
  intros Hok Hlast. unfold _parse_delimited, _clipboard_copy, reader.
  change (join [COMMA] (map _escape_csv headers)
          :: map (fun r => join [COMMA] (map _escape_csv r)) rows)
    with (map csv_line (headers :: rows)).
  rewrite splitlines_join.
  - now apply records_csv_lines.
  - apply Forall_map. eapply Forall_impl; [|exact Hok].
    intros r [H _]. now apply csv_line_no_break.
  - rewrite last_map_csv by discriminate. intros E.
    apply csv_line_nil in E as [E|E]; [contradiction|].
    assert (Hin : In (last (headers :: rows) []) (headers :: rows)).
    { clear. generalize headers. induction rows as [|r rows IH]; intros h.
      - now left.
      - right. apply IH. }
    rewrite Forall_forall in Hok. destruct (Hok _ Hin) as [_ Hne]. contradiction.
Qed.

End CsvRows.

(** X11. The CSV text [_clipboard_copy] writes is read back by
    [_parse_delimited] as the heading row and the rows it was written from,
    cell for cell, with commas and double quotes inside cells kept; this
    when no cell holds a line boundary or is longer than the reader's field
    limit, no row is the single empty cell, and the last row is not the
    empty row. *)
Theorem clipboard_csv_round_trip (headers : list str) (rows : list (list str)) :
  Forall csv_row_ok (headers :: rows) -> last (headers :: rows) [] <> [] ->
  _parse_delimited (_clipboard_copy headers rows fmt_csv) COMMA
  = Some (headers :: rows).
Proof. apply parse_clipboard_csv. Qed.

Lemma clipboard_csv_round_trip_witness :
  _parse_delimited
    (_clipboard_copy [lit "name"; lit "note"]
                     [[lit "Doe, J"; [DQUOTE] ++ lit "hi" ++ [DQUOTE]]; [];
                      [[]; lit "x"]] fmt_csv) COMMA
  = Some ([lit "name"; lit "note"]
          :: [[lit "Doe, J"; [DQUOTE] ++ lit "hi" ++ [DQUOTE]]; []; [[]; lit "x"]]).
Proof.
  apply clipboard_csv_round_trip.
  - repeat constructor; discriminate.
  - discriminate.
Defined.

(** X12. Copying rows as CSV and pasting that text into a grid with the
    same headings appends exactly the copied rows, each cut or filled to
    the column count: the heading line is recognised and left out. This for
    at least one copied row, under the conditions of X11, and for any case
    mapping. *)
Theorem copy_csv_then_paste (str_lower : str -> str)
    (hs : list str) (its rs : list (list str)) :
  Forall csv_row_ok (hs :: rs) -> rs <> [] -> last rs [] <> [] ->
  paste_rows str_lower (mkTree hs its) (Some (_clipboard_copy hs rs fmt_csv))
  = Pasted (mkTree hs (its ++ map (canon_row (length hs)) rs)) (length rs).
Proof.
  intros Hok Hne Hlast.
  assert (Hp : _parse_delimited (_clipboard_copy hs rs fmt_csv) COMMA
               = Some (hs :: rs)).
  { apply parse_clipboard_csv; auto.
    destruct rs as [|r rs]; [now elim Hne|exact Hlast]. }
  unfold paste_rows, sniff_and_parse. rewrite Hp.
  destruct rs as [|r rs]; [now elim Hne|].
  cbn [length Nat.leb]. cbn [headings items].
  assert (Hm : _header_matches str_lower hs hs = true)
    by (unfold _header_matches; now apply row_eqb_eq).
  rewrite Hm. cbn [skipn]. now rewrite length_map.
Qed.

Lemma copy_csv_then_paste_witness :
  paste_rows ascii_lower (mkTree [lit "a"; lit "b"] [[lit "1"; lit "2"]])
             (Some (_clipboard_copy [lit "a"; lit "b"] [[lit "1"; lit "2"]] fmt_csv))
  = Pasted (mkTree [lit "a"; lit "b"]
                   ([[lit "1"; lit "2"]] ++ map (canon_row 2) [[lit "1"; lit "2"]]))
           1.
Proof.
  apply (copy_csv_then_paste ascii_lower [lit "a"; lit "b"]
                             [[lit "1"; lit "2"]] [[lit "1"; lit "2"]]).
  - repeat constructor; discriminate.
  - discriminate.
  - discriminate.
Defined.

(** ** Delimited text without quotes *)

Section Unquoted.

Import Csv.

Variable d : char.

Lemma ordinary_tests (x : char) :
  ordinary x -> is_nl x = false /\ (x =? DQUOTE)%N = false.
Proof.
  intros [H1 H2]. split; [|now apply N.eqb_neq].
  unfold is_nl, no_break, is_linebreak, between in *.
  destruct (N.eqb_spec x LF) as [->|]; [discriminate|].
  destruct (N.eqb_spec x CR) as [->|]; [discriminate|]. reflexivity.
Qed.

Lemma feed_unquoted (s : str) :
  forall st F f,
    Forall ordinary s -> (N.of_nat (length f + length s) <= field_limit)%N ->
    (st = IN_FIELD \/ (st = START_FIELD /\ f = [])) ->
    exists r1, feed d (mkReader st F f) s = Some r1
               /\ parse_process_char d r1 EOL
                  = Some (mkReader START_RECORD (fields_after d F f s) []).
Proof.
  induction s as [|x s IH]; intros st F f Hs Hl Hst.
  - exists (mkReader st F f). split; [reflexivity|].
    unfold fields_after. simpl. rewrite app_nil_r.
    destruct Hst as [-> | [-> ->]]; reflexivity.
  - inversion Hs as [|? ? Hx Hs']; subst.
    destruct (ordinary_tests x Hx) as [E1 E2].
    assert (Hf : (N.of_nat (length f) < field_limit)%N) by (simpl in Hl; lia).
    cbn [feed]. unfold fields_after. cbn [split].
    destruct (N.eqb_spec x d) as [->|Hxd].
    + assert (H1 : parse_process_char d (mkReader st F f) (Chr d)
                   = Some (mkReader START_FIELD (F ++ [f]) [])).
      { destruct Hst as [-> | [-> ->]]; unfold parse_process_char, start_field;
          cbn [state]; rewrite E1, ?E2, N.eqb_refl; reflexivity. }
      rewrite H1.
      destruct (IH START_FIELD (F ++ [f]) []) as (r1 & Hr1 & Hr2); auto.
      { simpl in *. lia. }
      exists r1. split; [exact Hr1|]. rewrite Hr2. unfold fields_after.
      pose proof (split_not_nil d s) as Hn.
      destruct (split d s) as [|p ps]; [now elim Hn|].
      simpl. now rewrite app_nil_r, <- app_assoc.
    + assert (H1 : parse_process_char d (mkReader st F f) (Chr x)
                   = Some (mkReader IN_FIELD F (f ++ [x]))).
      { apply N.eqb_neq in Hxd.
        destruct Hst as [-> | [-> ->]]; unfold parse_process_char, start_field;
          cbn [state]; rewrite E1, ?E2, Hxd;
          rewrite add_char_ok by (simpl in *; lia); reflexivity. }
      rewrite H1.
      destruct (IH IN_FIELD F (f ++ [x])) as (r1 & Hr1 & Hr2); auto.
      { rewrite length_app. simpl in *. lia. }
      exists r1. split; [exact Hr1|]. rewrite Hr2. unfold fields_after.
      pose proof (split_not_nil d s) as Hn.
      destruct (split d s) as [|p ps]; [now elim Hn|].
      now rewrite <- app_assoc.
Qed.

Lemma feed_unquoted_line (line : str) :
  Forall ordinary line -> (N.of_nat (length line) <= field_limit)%N ->
  exists r1, feed d reset line = Some r1
             /\ parse_process_char d r1 EOL
                = Some (mkReader START_RECORD (plain_row d line) []).
Proof.
  intros Hs Hl. destruct line as [|x s].
  - exists reset. split; reflexivity.
  - destruct (feed_unquoted (x :: s) START_FIELD [] []) as (r1 & H1 & H2); auto.
    exists r1. split; [|rewrite H2; unfold fields_after, plain_row;
                        pose proof (split_not_nil d (x :: s)) as Hn;
                        destruct (split d (x :: s)); [now elim Hn|reflexivity]].
    rewrite <- H1. cbn [feed].
    inversion Hs as [|? ? Hx _]; subst.
    destruct (ordinary_tests x Hx) as [E1 E2].
    unfold parse_process_char, reset. cbn [state]. rewrite E1. reflexivity.
Qed.

Lemma records_unquoted (lines : list str) :
  Forall (Forall ordinary) lines ->
  Forall (fun l => (N.of_nat (length l) <= field_limit)%N) lines ->
  records d reset lines = Some (map (plain_row d) lines).
Proof.
  induction 1 as [|l lines Hl Hls IH]; intros Hlen; [reflexivity|].
  inversion Hlen as [|? ? Hlen1 Hlen2]; subst.
  destruct (feed_unquoted_line l) as (r1 & R1 & R2); auto.
  cbn [records map]. rewrite R1, R2. cbn [state fields].
  now rewrite IH.
Qed.

End Unquoted.

(** X13. On a text without a double quote and without a line longer than
    the field limit, [_parse_delimited] is a plain split: every line of
    [text.splitlines()] gives one row, the empty line the empty row, and
    any other line its parts between the delimiters. *)
Theorem parse_delimited_without_quotes (text : str) (delimiter : char) :
  ~ In DQUOTE text ->
  Forall (fun l => (N.of_nat (length l) <= Csv.field_limit)%N) (splitlines text) ->
  _parse_delimited text delimiter
  = Some (map (plain_row delimiter) (splitlines text)).
Proof.
  intros Hq Hlen. unfold _parse_delimited, Csv.reader.
  apply records_unquoted; [|exact Hlen].
  assert (H1 : Forall (Forall (fun x => x <> DQUOTE)) (splitlines text)).
  { apply (splitlines_Forall_len _ (length text)); [lia|].
    apply Forall_forall. intros c Hc ->. contradiction. }
  pose proof (splitlines_no_break text) as H2.
  rewrite Forall_forall in *. intros l Hl.
  specialize (H1 l Hl). specialize (H2 l Hl).
  rewrite Forall_forall in *. intros x Hx. split; auto.
Qed.

Lemma parse_delimited_without_quotes_witness :
  _parse_delimited (lit "a;b;;c" ++ [LF; LF] ++ lit "d") 59%N
  = Some (map (plain_row 59%N) (splitlines (lit "a;b;;c" ++ [LF; LF] ++ lit "d"))).
Proof.
  apply parse_delimited_without_quotes.
  - vm_compute. intuition discriminate.
  - repeat constructor; vm_compute; discriminate.
Defined.

(** ** Committing a table into the document *)

Section Commit.

Lemma splitlines_join_app (a : list str) (x : str) :
  Forall (Forall no_break) a -> a <> [] ->
  splitlines (join [LF] a ++ LF :: x) = a ++ splitlines x.
Proof.
  induction 1 as [|l a Hl Ha IH]; [intros H; now elim H|]. intros _.
  destruct a as [|l2 a].
  - simpl. now apply splitlines_app_lf.
  - change (join [LF] (l :: l2 :: a)) with (l ++ LF :: join [LF] (l2 :: a)).
    rewrite <- app_assoc. cbn [app].
    rewrite splitlines_app_lf by assumption.
    cbn [app]. f_equal. apply IH. discriminate.
Qed.

Lemma join_lf_nil (a : list str) : join [LF] a = [] -> a = [] \/ a = [[]].
Proof.
  destruct a as [|l [|l2 a]]; simpl; auto.
  - intros ->. auto.
  - intros H. apply app_eq_nil in H as [_ H]. discriminate.
Qed.

Lemma md_lines_no_break (t : MarkdownTable) :
  Forall (Forall no_break) (header t) ->
  Forall (fun r => Forall (Forall no_break) (canon_row (length (header t)) r))
         (rows t) ->
  Forall (Forall no_break) (md_lines t).
Proof.
  intros Hh Hr. unfold md_lines. constructor; [|constructor].
  - apply fmt_row_no_break. now rewrite canon_row_id.
  - apply bars_no_break, fmt_sep_parts.
  - apply Forall_map. eapply Forall_impl; [|exact Hr].
    intros r. apply fmt_row_no_break.
Qed.

Lemma Forall_firstn_lines (P : str -> Prop) (ls : list str) (n : nat) :
  Forall P ls -> Forall P (firstn n ls).
Proof.
  intros H. revert n. induction H as [|l ls Hl Hls IH]; intros [|n]; simpl; auto.
Qed.

(** The lines of the committed text, for the lines [a] kept before the
    table and the lines [b] kept after it. *)
Lemma commit_lines (md : str) (start end_ : nat) (al : list align)
    (hs : list str) (rs : list (list str)) :
  let t := mkTable hs al rs in
  let a := firstn start (splitlines md) in
  let b := skipn end_ (splitlines md) in
  Forall (Forall no_break) hs ->
  Forall (fun r => Forall (Forall no_break) (canon_row (length hs) r)) rs ->
  b = [] \/ last b [] <> [] ->
  splitlines (commit_table_to_md md start end_ al hs rs)
  = (if match a with [[]] => true | _ => false end then [] else a)
    ++ md_lines t ++ b.
Proof.
  intros t a b Hh Hr Hb.
  assert (Ha : Forall (Forall no_break) a)
    by (apply Forall_firstn_lines, splitlines_no_break).
  assert (Hbn : Forall (Forall no_break) b)
    by (apply Forall_skipn_lines, splitlines_no_break).
  assert (Hm : Forall (Forall no_break) (md_lines t)) by now apply md_lines_no_break.
  assert (Hmne : md_lines t <> []) by discriminate.
  assert (Htail :
            splitlines (to_markdown t
                        ++ match join [LF] b with
                           | [] => []
                           | _ :: _ => [LF] ++ join [LF] b
                           end) = md_lines t ++ b).
  { destruct (join [LF] b) as [|c jb] eqn:E.
    - rewrite app_nil_r. apply join_lf_nil in E as [-> | ->].
      + rewrite app_nil_r. now apply splitlines_md_lines.
      + destruct Hb as [Hb|Hb]; [discriminate|]. now elim Hb.
    - rewrite <- E. unfold to_markdown. cbn [app].
      rewrite splitlines_join_app by assumption. f_equal.
      destruct Hb as [Hb|Hb]; [rewrite Hb in E; discriminate|].
      now apply splitlines_join. }
  unfold commit_table_to_md. fold a b t.
  destruct (join [LF] a) as [|c ja] eqn:E.
  - apply join_lf_nil in E as [-> | ->]; cbn [app]; exact Htail.
  - rewrite <- E.
    assert (Hne : a <> []) by (intros ->; discriminate).
    assert (Hnb : match a with [[]] => true | _ => false end = false).
    { destruct a as [|[|x l] [|l2 a']]; auto. discriminate. }
    rewrite Hnb, <- app_assoc. cbn [app].
    rewrite splitlines_join_app by assumption. f_equal. exact Htail.
Qed.

Lemma skipn_cons_nth_error (ls : list str) (k : nat) (l : str) (rest : list str) :
  skipn k ls = l :: rest -> nth_error ls k = Some l.
Proof.
  revert k. induction ls as [|x ls IH]; intros [|k]; simpl; try discriminate.
  - now intros [= -> _].
  - apply IH.
Qed.

End Commit.

(** X14. [commit_table_to_md] keeps the lines of the document outside the
    region: the committed text splits into the lines before the region, the
    lines of the rendered table and the lines after the region. One case
    apart: a single empty line that is all there is before the region is
    dropped. This when no rendered cell holds a line boundary and the
    document does not end in an empty line after the region. *)
Theorem commit_keeps_other_lines (md : str) (start end_ : nat) (al : list align)
    (hs : list str) (rs : list (list str)) :
  let t := mkTable hs al rs in
  let a := firstn start (splitlines md) in
  let b := skipn end_ (splitlines md) in
  Forall (Forall no_break) hs ->
  Forall (fun r => Forall (Forall no_break) (canon_row (length hs) r)) rs ->
  b = [] \/ last b [] <> [] ->
  (a <> [[]] ->
   splitlines (commit_table_to_md md start end_ al hs rs) = a ++ md_lines t ++ b)
  /\ (a = [[]] ->
      splitlines (commit_table_to_md md start end_ al hs rs) = md_lines t ++ b).
Proof.
  intros t a b Hh Hr Hb.
  pose proof (commit_lines md start end_ al hs rs Hh Hr Hb) as H.
  fold t a b in H. cbv zeta in H. split; intros Ha.
  - rewrite H. destruct a as [|[|x l] [|l2 a']]; auto. now elim Ha.
  - rewrite H, Ha. reflexivity.
Qed.

Lemma commit_keeps_other_lines_witness :
  splitlines (commit_table_to_md (lit "intro" ++ [LF] ++ sample_text ++ [LF] ++ lit "end")
                                 1 5 [a_left] [lit "h"] [[lit "v"]])
  = [lit "intro"] ++ md_lines (mkTable [lit "h"] [a_left] [[lit "v"]]) ++ [lit "end"].
Proof.
  apply (commit_keeps_other_lines
           (lit "intro" ++ [LF] ++ sample_text ++ [LF] ++ lit "end")
           1 5 [a_left] [lit "h"] [[lit "v"]]).
  - repeat constructor.
  - repeat constructor.
  - right. vm_compute. discriminate.
  - vm_compute. discriminate.
Defined.

(** X15. Committing into a region that [find_tables] found puts a table
    back at the region's start line: in the committed text
    [parse_pipe_table] at that line returns the committed table, as
    [to_markdown] reads it, over its two lines and one more per row. This
    for a committed table as in C1, lines before the region that are not a
    single empty line, and a document that does not end in an empty line
    after the region. *)
Theorem commit_then_parse (md : str) (start end_ : nat) (t0 : MarkdownTable)
    (al : list align) (hs : list str) (rs : list (list str)) :
  In (start, end_, t0) (find_tables md) ->
  renderable (mkTable hs al rs) = true ->
  firstn start (splitlines md) <> [[]] ->
  skipn end_ (splitlines md) = [] \/ last (skipn end_ (splitlines md)) [] <> [] ->
  parse_pipe_table (splitlines (commit_table_to_md md start end_ al hs rs)) start
  = (Some (canon (mkTable hs al rs)), start + (2 + length rs)).
Proof.
  intros Hin Hren Ha Hb.
  set (t := mkTable hs al rs) in *. set (lines := splitlines md) in *.
  apply scan_sound in Hin. cbn [region_start region_end region_table fst snd] in Hin.
  fold lines in Hin.
  pose proof (parse_success _ _ _ _ Hin) as (He & Hs2 & Hel & _).
  destruct (collect_run (skipn start lines)) as (_ & _ & Hmax).
  destruct (renderable_spec t Hren) as (_ & Hh & Hr & _).
  rewrite canon_row_id in Hh.
  assert (Hlines : splitlines (commit_table_to_md md start end_ al hs rs)
                   = firstn start lines ++ md_lines t ++ skipn end_ lines).
  { pose proof (commit_lines md start end_ al hs rs) as H. cbv zeta in H.
    fold lines t in H. rewrite H; auto.
    - destruct (firstn start lines) as [|[|x l] [|l2 a']]; auto. now elim Ha.
    - now apply clean_cells_no_break.
    - eapply Forall_impl; [|exact Hr]. intros r. apply clean_cells_no_break. }
  assert (Hcb : collect (skipn end_ lines) = []).
  { destruct (skipn end_ lines) as [|l rest] eqn:E; [reflexivity|].
    assert (Hn : nth_error (skipn start lines)
                           (length (collect (skipn start lines))) = Some l).
    { apply (skipn_cons_nth_error _ _ _ rest).
      rewrite skipn_skipn, <- E. f_equal. lia. }
    apply Hmax in Hn. simpl.
    destruct (is_table_line (rstrip_nl l)) eqn:Et; auto.
    apply is_table_line_spec in Et. contradiction. }
  rewrite Hlines, parse_at_skipn.
  assert (Hlen : length (firstn start lines) = start)
    by (apply firstn_length_le; lia).
  assert (Hsk : skipn start (firstn start lines ++ md_lines t ++ skipn end_ lines)
                = md_lines t ++ skipn end_ lines).
  { rewrite <- Hlen at 1. apply skipn_app_exact. }
  rewrite Hsk.
  assert (Hp : parse_pipe_table (md_lines t ++ skipn end_ lines) 0
               = parse_pipe_table (md_lines t) 0).
  { unfold parse_pipe_table. cbn [skipn].
    rewrite collect_all_app, Hcb, app_nil_r; auto.
    now rewrite collect_id by apply md_lines_table_lines. }
  rewrite Hp, parse_md_lines by assumption. reflexivity.
Qed.

Lemma commit_then_parse_witness :
  parse_pipe_table
    (splitlines (commit_table_to_md
                   (lit "intro" ++ [LF] ++ sample_text ++ [LF] ++ lit "end")
                   1 5 [a_right] [lit "head"] [[lit "v"]])) 1
  = (Some (canon (mkTable [lit "head"] [a_right] [[lit "v"]])), 1 + (2 + 1)).
Proof.
  apply (commit_then_parse _ 1 5 sample_table).
  - vm_compute. left. reflexivity.
  - vm_compute. reflexivity.
  - vm_compute. discriminate.
  - right. vm_compute. discriminate.
Defined.

(** ** Loading a table into the grid *)

Section Load.

Lemma heading_texts_id (hs : list str) :
  forall i, Forall (fun h => h <> []) hs -> heading_texts i hs = hs.
Proof.
  induction hs as [|h hs IH]; intros i H; simpl; auto.
  inversion H; subst. rewrite IH by assumption.
  destruct h; [congruence|reflexivity].
Qed.

Lemma heading_texts_shape (hs : list str) :
  forall i, Forall (fun h => h <> []) (heading_texts i hs)
            /\ length (heading_texts i hs) = length hs.
Proof.
  induction hs as [|h hs IH]; intros i; simpl; [split; auto|].
  destruct (IH (S i)) as [H1 H2]. split; [|now rewrite H2].
  constructor; auto. destruct h; simpl; discriminate.
Qed.

Lemma canon_row_idem (cols : nat) (r : list str) :
  canon_row cols (canon_row cols r) = canon_row cols r.
Proof.
  unfold canon_row at 1 3. apply map_ext_in. intros i Hi.
  apply in_seq in Hi. apply cell_at_canon_row. lia.
Qed.

Lemma to_markdown_canon_rows (hs : list str) (al : list align) (rs : list (list str)) :
  to_markdown (mkTable hs al (map (canon_row (length hs)) rs))
  = to_markdown (mkTable hs al rs).
Proof.
  rewrite <- (to_markdown_canon (mkTable hs al (map _ rs))).
  rewrite <- (to_markdown_canon (mkTable hs al rs)).
  unfold canon. cbn [header aligns rows]. do 2 f_equal.
  rewrite map_map. apply map_ext. intros r. apply canon_row_idem.
Qed.

End Load.

(** X16. [load_table_into_grid] gives the grid one heading per header
    cell, none of them empty: an empty header cell is shown as [Column n].
    When no header cell is empty the headings are the header, and committing
    what was loaded writes the same text as committing the table itself. *)
Theorem load_then_commit (t : MarkdownTable) :
  let g := load_table_into_grid t in
  Forall (fun h => h <> []) (headings g)
  /\ length (headings g) = length (header t)
  /\ (Forall (fun h => h <> []) (header t) ->
      headings g = header t
      /\ forall md start end_,
           commit_table_to_md md start end_ (aligns t) (headings g) (items g)
           = commit_table_to_md md start end_ (aligns t) (header t) (rows t)).
Proof.
  intros g. unfold g, load_table_into_grid, rebuild_tree_columns.
  cbn [headings items].
  destruct (heading_texts_shape (header t) 0) as [H1 H2].
  repeat split; auto.
  - now apply heading_texts_id.
  - intros md start end_. rewrite heading_texts_id by assumption.
    unfold commit_table_to_md. now rewrite to_markdown_canon_rows.
Qed.

Lemma load_then_commit_witness :
  headings (load_table_into_grid sample_table) = header sample_table
  /\ forall md start end_,
       commit_table_to_md md start end_ (aligns sample_table)
                          (headings (load_table_into_grid sample_table))
                          (items (load_table_into_grid sample_table))
       = commit_table_to_md md start end_ (aligns sample_table)
                            (header sample_table) (rows sample_table).
Proof.
  apply (load_then_commit sample_table). repeat constructor; discriminate.
Defined.

(** ** The preview *)

Section Preview.

Lemma re_sub_from_absent (x : char) (d' op cl : str) (fuel : nat) :
  forall s, ~ In x s -> re_sub_from fuel (x :: d') op cl s = s.
Proof.
  induction fuel as [|fuel IH]; intros s Hs; [reflexivity|].
  destruct s as [|c s]; [reflexivity|]. cbn [re_sub_from starts_with].
  assert (E : (x =? c)%N = false).
  { apply N.eqb_neq. intros ->. apply Hs. now left. }
  rewrite E. cbn [andb]. f_equal. apply IH. intros H. apply Hs. now right.
Qed.

Lemma preview_inline_plain (line : str) :
  ~ In STAR line -> ~ In BACKTICK line -> preview_inline line = line.
Proof.
  intros H1 H2. unfold preview_inline, re_sub.
  rewrite (re_sub_from_absent STAR [STAR]) by assumption.
  rewrite (re_sub_from_absent STAR []) by assumption.
  now rewrite (re_sub_from_absent BACKTICK []) by assumption.
Qed.

Lemma is_fence_plain (line : str) : ~ In BACKTICK line -> is_fence line = false.
Proof.
  intros H. unfold is_fence.
  assert (Hs : Forall (fun c => c <> BACKTICK) (strip line)).
  { apply strip_Forall, Forall_forall. intros c Hc ->. contradiction. }
  destruct (strip line) as [|c s]; [reflexivity|].
  inversion Hs; subst. cbn [starts_with].
  destruct (N.eqb_spec BACKTICK c); [congruence|reflexivity].
Qed.

Lemma preview_lines_plain (lines : list str) :
  Forall (fun l => ~ In STAR l /\ ~ In BACKTICK l) lines ->
  preview_lines false lines = lines.
Proof.
  induction 1 as [|l lines [H1 H2] Hls IH]; simpl; auto.
  rewrite is_fence_plain, preview_inline_plain, IH by assumption. reflexivity.
Qed.






Lemma preview_fenced (body : list str) :
  forall f2 rest,
    Forall (fun l => is_fence l = false) body -> is_fence f2 = true ->
    preview_lines true (body ++ f2 :: rest)
    = body ++ lit "[/code]" :: preview_lines false rest.
Proof.
  induction body as [|l body IH]; intros f2 rest Hb Hf; simpl.
  - now rewrite Hf.
  - inversion Hb as [|? ? Hl Hb']; subst. rewrite Hl. f_equal. now apply IH.
Qed.

End Preview.


(** X18. A document without an asterisk and without a backtick is shown as
    it is: the preview is the lines of the document joined by line feeds. *)
Theorem preview_plain_text (md : str) :
  ~ In STAR md -> ~ In BACKTICK md ->
  simple_markdown_to_text md = join [LF] (splitlines md).
Proof.
  intros H1 H2. unfold simple_markdown_to_text. f_equal.
  apply preview_lines_plain.
  assert (F1 : Forall (Forall (fun c => c <> STAR)) (splitlines md)).
  { apply (splitlines_Forall_len _ (length md)); [lia|].
    apply Forall_forall. intros c Hc ->. contradiction. }
  assert (F2 : Forall (Forall (fun c => c <> BACKTICK)) (splitlines md)).
  { apply (splitlines_Forall_len _ (length md)); [lia|].
    apply Forall_forall. intros c Hc ->. contradiction. }
  rewrite Forall_forall in *. intros l Hl.
  specialize (F1 l Hl). specialize (F2 l Hl). rewrite Forall_forall in *.
  split; intros Hin; [now apply (F1 STAR)|now apply (F2 BACKTICK)].
Qed.

Lemma preview_plain_text_witness :
  simple_markdown_to_text (lit "# Title" ++ [CR; LF] ++ sample_text)
  = join [LF] (splitlines (lit "# Title" ++ [CR; LF] ++ sample_text)).
Proof.
  apply preview_plain_text; vm_compute; intuition discriminate.
Defined.

(** X19. Between a fence line and the next fence line the preview shows
    the lines as they are, asterisks and backticks included; the two fence
    lines are shown as [[code]] and [[/code]]. *)
Theorem preview_fenced_block (f1 f2 : str) (body rest : list str) :
  is_fence f1 = true -> Forall (fun l => is_fence l = false) body ->
  is_fence f2 = true ->
  preview_lines false (f1 :: body ++ f2 :: rest)
  = lit "[code]" :: body ++ lit "[/code]" :: preview_lines false rest.
Proof.
  intros H1 Hb H2. cbn [preview_lines]. rewrite H1. cbn [negb].
  f_equal. now apply preview_fenced.
Qed.

Lemma preview_fenced_block_witness :
  preview_lines false (lit "  ```python" :: [lit "x = a*b*c"; lit "`y`"]
                       ++ lit "```" :: [lit "*it*"])
  = lit "[code]" :: [lit "x = a*b*c"; lit "`y`"]
    ++ lit "[/code]" :: preview_lines false [lit "*it*"].
Proof.
  apply preview_fenced_block.
  - vm_compute. reflexivity.
  - repeat constructor.
  - vm_compute. reflexivity.
Defined.

(** ** Spans in a line of the preview *)

Section Spans.

Variables (x : char) (d' op cl : str).

Let d : str := x :: d'.

Lemma starts_with_app (p t : str) : starts_with p (p ++ t) = true.
Proof.
  induction p as [|c p IH]; simpl; auto. now rewrite N.eqb_refl.
Qed.

Lemma skipn_app_chars (p t : str) : skipn (length p) (p ++ t) = t.
Proof. induction p; simpl; auto. Qed.

Lemma starts_with_other (c : char) (t : str) :
  c <> x -> starts_with d (c :: t) = false.
Proof.
  intros H. unfold d. cbn [starts_with].
  destruct (N.eqb_spec x c); [congruence|reflexivity].
Qed.

Lemma find_close_span (g post : str) :
  g <> [] -> ~ In x g -> ~ In LF g ->
  find_close d (g ++ d ++ post) = Some (g, post).
Proof.
  induction g as [|c g IH]; intros Hne Hx Hlf; [now elim Hne|].
  cbn [app find_close].
  assert (E : (c =? LF)%N = false).
  { apply N.eqb_neq. intros ->. apply Hlf. now left. }
  rewrite E. destruct g as [|c2 g].
  - cbn [app]. now rewrite starts_with_app, skipn_app_chars.
  - cbn [app]. rewrite starts_with_other.
    + change (c2 :: g ++ d ++ post) with ((c2 :: g) ++ d ++ post).
      rewrite IH; auto; try discriminate.
      * intros H. apply Hx. now right.
      * intros H. apply Hlf. now right.
    + intros ->. apply Hx. right. now left.
Qed.

Lemma re_sub_from_span (pre g post : str) :
  ~ In x pre -> g <> [] -> ~ In x g -> ~ In LF g -> ~ In x post ->
  forall fuel, length (pre ++ d ++ g ++ d ++ post) <= fuel ->
               re_sub_from fuel d op cl (pre ++ d ++ g ++ d ++ post)
               = pre ++ op ++ g ++ cl ++ post.
Proof.
  intros Hpre Hne Hg Hlf Hpost.
  induction pre as [|c pre IH]; intros fuel Hf.
  - destruct fuel as [|fuel]; [unfold d in Hf; simpl in Hf; lia|].
    cbn [app]. unfold d at 2. cbn [app re_sub_from]. fold d.
    change (x :: d' ++ g ++ d ++ post) with (d ++ g ++ d ++ post).
    rewrite starts_with_app, skipn_app_chars, find_close_span by assumption.
    unfold d at 1. now rewrite re_sub_from_absent.
  - destruct fuel as [|fuel]; [simpl in Hf; lia|].
    cbn [app re_sub_from]. rewrite starts_with_other.
    + f_equal. apply IH; [|cbn [app length] in Hf; lia].
      intros H. apply Hpre. now right.
    + intros ->. apply Hpre. now left.
Qed.

Lemma re_sub_from_no_open (fuel : nat) :
  forall s, (forall p t, s = p ++ t -> starts_with d t = false) ->
            re_sub_from fuel d op cl s = s.
Proof.
  induction fuel as [|fuel IH]; intros s H; [reflexivity|].
  destruct s as [|c s]; [reflexivity|]. cbn [re_sub_from].
  rewrite (H [] (c :: s) eq_refl). f_equal. apply IH.
  intros p t ->. now apply (H (c :: p) t).
Qed.

End Spans.

Section Doubled.

Variable x : char.

Lemma doubled_found (p t : str) : doubled x (p ++ x :: x :: t) = true.
Proof.
  induction p as [|a p IH].
  - simpl. now rewrite N.eqb_refl.
  - cbn [app]. revert IH. generalize (p ++ x :: x :: t). intros s Hs.
    destruct s as [|b s]; [discriminate|].
    change (doubled x (a :: b :: s))
      with (((a =? x)%N && (b =? x)%N) || doubled x (b :: s)).
    rewrite Hs. apply orb_true_r.
Qed.

Lemma doubled_skip (pre t : str) :
  ~ In x pre -> doubled x (pre ++ t) = doubled x t.
Proof.
  induction pre as [|a pre IH]; intros H; [reflexivity|].
  assert (Ha : (a =? x)%N = false).
  { apply N.eqb_neq. intros ->. apply H. now left. }
  assert (Hp : ~ In x pre) by (intros Hi; apply H; now right).
  specialize (IH Hp). cbn [app]. revert IH.
  generalize (pre ++ t). intros s Hs. destruct s as [|b s].
  - rewrite <- Hs. reflexivity.
  - change (doubled x (a :: b :: s))
      with (((a =? x)%N && (b =? x)%N) || doubled x (b :: s)).
    now rewrite Ha.
Qed.

Lemma doubled_single_span (pre g post : str) :
  ~ In x pre -> g <> [] -> ~ In x g -> ~ In x post ->
  doubled x (pre ++ [x] ++ g ++ [x] ++ post) = false.
Proof.
  intros Hpre Hne Hg Hpost.
  assert (H0 : doubled x post = false).
  { rewrite <- (app_nil_r post). now rewrite doubled_skip. }
  assert (H3 : doubled x ([x] ++ post) = false).
  { destruct post as [|b post]; [reflexivity|].
    change (doubled x ([x] ++ b :: post))
      with (((x =? x)%N && (b =? x)%N) || doubled x (b :: post)).
    assert (Hb : (b =? x)%N = false).
    { apply N.eqb_neq. intros ->. apply Hpost. now left. }
    now rewrite Hb, andb_false_r, H0. }
  assert (H2 : doubled x (g ++ [x] ++ post) = false)
    by now rewrite doubled_skip.
  assert (H1 : doubled x ([x] ++ g ++ [x] ++ post) = false).
  { destruct g as [|c g]; [now elim Hne|].
    change (doubled x ([x] ++ (c :: g) ++ [x] ++ post))
      with (((x =? x)%N && (c =? x)%N) || doubled x ((c :: g) ++ [x] ++ post)).
    assert (Hc : (c =? x)%N = false).
    { apply N.eqb_neq. intros ->. apply Hg. now left. }
    now rewrite Hc, andb_false_r, H2. }
  now rewrite doubled_skip.
Qed.

Lemma no_open_double (op cl s : str) (fuel : nat) :
  doubled x s = false -> re_sub_from fuel [x; x] op cl s = s.
Proof.
  intros H. apply re_sub_from_no_open. intros p t ->.
  destruct t as [|a [|b t]]; cbn [starts_with]; auto using andb_false_r.
  destruct (N.eqb_spec x a) as [<-|]; auto.
  destruct (N.eqb_spec x b) as [<-|]; auto.
  now rewrite doubled_found in H.
Qed.

End Doubled.

(** X20. A span between two double asterisks, two asterisks or two
    backticks, in a line with no other asterisk or backtick, is shown
    between the tags [[bold]], [[italic]] or [[code]] and their closing
    tags, the delimiters gone and the rest of the line as it is; the span
    is not empty and holds no line feed. *)
Theorem preview_tags_spans (pre g post : str) :
  Forall (fun z => z <> STAR /\ z <> BACKTICK) (pre ++ g ++ post) ->
  g <> [] -> ~ In LF g ->
  preview_inline (pre ++ [STAR; STAR] ++ g ++ [STAR; STAR] ++ post)
  = pre ++ lit "[bold]" ++ g ++ lit "[/bold]" ++ post
  /\ preview_inline (pre ++ [STAR] ++ g ++ [STAR] ++ post)
     = pre ++ lit "[italic]" ++ g ++ lit "[/italic]" ++ post
  /\ preview_inline (pre ++ [BACKTICK] ++ g ++ [BACKTICK] ++ post)
     = pre ++ lit "[code]" ++ g ++ lit "[/code]" ++ post.
Proof.
  intros Hall Hne Hlf. rewrite !Forall_app in Hall.
  destruct Hall as (Hpre & Hg & Hpost).
  assert (N : forall (s : str) (z : char),
             Forall (fun y => y <> STAR /\ y <> BACKTICK) s ->
             z = STAR \/ z = BACKTICK -> ~ In z s).
  { intros s z Hs Hz Hin. rewrite Forall_forall in Hs.
    destruct (Hs z Hin). destruct Hz; contradiction. }
  assert (T : forall (tag1 tag2 : str) (z : char),
             ~ In z tag1 -> ~ In z tag2 -> z = STAR \/ z = BACKTICK ->
             ~ In z (pre ++ tag1 ++ g ++ tag2 ++ post)).
  { intros tag1 tag2 z H1 H2 Hz. rewrite !in_app_iff.
    pose proof (N pre z Hpre Hz). pose proof (N g z Hg Hz).
    pose proof (N post z Hpost Hz). tauto. }
  unfold preview_inline, re_sub. repeat split.
  - rewrite (re_sub_from_span STAR [STAR]); auto.
    rewrite (re_sub_from_absent STAR [])
      by (apply T; auto; vm_compute; intuition discriminate).
    now rewrite (re_sub_from_absent BACKTICK [])
      by (apply T; auto; vm_compute; intuition discriminate).
  - rewrite no_open_double by (apply doubled_single_span; auto).
    rewrite (re_sub_from_span STAR []); auto.
    now rewrite (re_sub_from_absent BACKTICK [])
      by (apply T; auto; vm_compute; intuition discriminate).
  - rewrite (re_sub_from_absent STAR [STAR])
      by (apply T; auto; vm_compute; intuition discriminate).
    rewrite (re_sub_from_absent STAR [])
      by (apply T; auto; vm_compute; intuition discriminate).
    now rewrite (re_sub_from_span BACKTICK []); auto.
Qed.

Lemma preview_tags_spans_witness :
  preview_inline (lit "a " ++ [STAR; STAR] ++ lit "b c" ++ [STAR; STAR] ++ lit " d")
  = lit "a " ++ lit "[bold]" ++ lit "b c" ++ lit "[/bold]" ++ lit " d"
  /\ preview_inline (lit "a " ++ [STAR] ++ lit "b c" ++ [STAR] ++ lit " d")
     = lit "a " ++ lit "[italic]" ++ lit "b c" ++ lit "[/italic]" ++ lit " d"
  /\ preview_inline (lit "a " ++ [BACKTICK] ++ lit "b c" ++ [BACKTICK] ++ lit " d")
     = lit "a " ++ lit "[code]" ++ lit "b c" ++ lit "[/code]" ++ lit " d".
Proof.
  apply (preview_tags_spans (lit "a ") (lit "b c") (lit " d")).
  - repeat constructor; discriminate.
  - discriminate.
  - vm_compute. intuition discriminate.
Defined.

(** ** A field longer than the reader takes *)

Section Overflow.

Import Csv.

Lemma feed_overflow (d : char) (s : str) :
  forall F f,
    Forall (fun x => ordinary x /\ x <> d) s ->
    (N.of_nat (length f) <= field_limit)%N ->
    (field_limit < N.of_nat (length f + length s))%N ->
    feed d (mkReader IN_FIELD F f) s = None.
Proof.
  induction s as [|x s IH]; intros F f Hs Hf Hl.
  - simpl in Hl. rewrite Nat.add_0_r in Hl. lia.
  - inversion Hs as [|? ? [Hx Hxd] Hs']; subst.
    destruct (ordinary_tests x Hx) as [E1 E2]. apply N.eqb_neq in Hxd.
    cbn [feed]. unfold parse_process_char. cbn [state]. rewrite E1, Hxd.
    unfold parse_add_char. cbn [field].
    destruct (N.leb_spec field_limit (N.of_nat (length f))); [reflexivity|].
    cbn [state fields]. apply IH; auto.
    + rewrite length_app. simpl. lia.
    + rewrite length_app. simpl in *. lia.
Qed.

Lemma long_line_fails (d : char) (s : str) :
  Forall (fun x => ordinary x /\ x <> d) s ->
  (field_limit < N.of_nat (length s))%N ->
  _parse_delimited s d = None.
Proof.
  intros Hs Hl. unfold _parse_delimited, reader.
  destruct s as [|x s]; [simpl in Hl; lia|].
  rewrite splitlines_line; [| |discriminate].
  - inversion Hs as [|? ? [Hx Hxd] Hs']; subst.
    destruct (ordinary_tests x Hx) as [E1 E2]. apply N.eqb_neq in Hxd.
    cbn [records feed].
    assert (H1 : parse_process_char d reset (Chr x) = Some (mkReader IN_FIELD [] [x])).
    { unfold parse_process_char, start_field, reset. cbn [state].
      rewrite E1. cbn [set_state state fields field]. now rewrite E2, Hxd. }
    rewrite H1, feed_overflow; auto;
      try (simpl; unfold field_limit; lia); simpl in *; lia.
  - eapply Forall_impl; [|exact Hs]. intros c [[_ Hc] _]. exact Hc.
Qed.

End Overflow.

(** X21. A clipboard text that is one line with no comma, no double quote
    and more characters than the field limit of the reader (131072) makes
    [_parse_delimited] raise, and [paste_rows] with it: nothing is pasted
    and the tab parse is not tried. *)
Theorem long_field_raises (str_lower : str -> str) (tree : Tree) (s : str) :
  Forall (fun x => ordinary x /\ x <> COMMA) s ->
  (Csv.field_limit < N.of_nat (length s))%N ->
  _parse_delimited s COMMA = None
  /\ paste_rows str_lower tree (Some s) = Raised.
Proof.
  intros Hs Hl. pose proof (long_line_fails COMMA s Hs Hl) as H.
  split; [exact H|]. unfold paste_rows, sniff_and_parse. now rewrite H.
Qed.

Lemma long_field_raises_witness :
  _parse_delimited (repeat 97%N (N.to_nat 131073)) COMMA = None
  /\ paste_rows ascii_lower (mkTree [] []) (Some (repeat 97%N (N.to_nat 131073)))
     = Raised.
Proof.
  apply long_field_raises.
  - apply Forall_forall. intros x Hx. apply repeat_spec in Hx as ->.
    repeat split; discriminate.
  - rewrite repeat_length, N2Nat.id. reflexivity.
Defined.

(** ** Reading back the Markdown text of [_clipboard_copy] *)

(** X22. The Markdown text [_clipboard_copy] writes, every column aligned
    left, is found again by [find_tables] as one table with the headings as
    header and the rows cut or filled to the column count, whenever there
    is a heading, no heading is empty and the rendered cells are clean:
    a column with a heading is always wide enough. *)
Theorem clipboard_md_read_back (hs : list str) (rs : list (list str)) :
  hs <> [] -> Forall (fun h => h <> []) hs ->
  forallb clean_cell hs = true ->
  forallb (fun r => forallb clean_cell (canon_row (length hs) r)) rs = true ->
  find_tables (_clipboard_copy hs rs fmt_md)
  = [(0, 2 + length rs,
      mkTable hs (repeat a_left (length hs)) (map (canon_row (length hs)) rs))].
Proof.
  intros Hne Hnon Hh Hr. unfold _clipboard_copy.
  set (t := mkTable hs (repeat a_left (length hs)) rs).
  assert (Hren : renderable t = true).
  { unfold renderable. cbn [header rows aligns t]. rewrite Hh, Hr.
    assert (Hc : negb (length hs =? 0) = true).
    { destruct hs; [now elim Hne|reflexivity]. }
    rewrite Hc. cbn [andb]. apply forallb_forall. intros i Hi.
    apply in_seq in Hi. rewrite nth_repeat. apply Nat.leb_le. cbn [dashes].
    pose proof (col_widths_bound t hs i (proj2 Hi) (or_introl eq_refl)) as Hb.
    assert (Hin : In (cell_at hs i) hs) by (apply nth_In; lia).
    rewrite Forall_forall in Hnon. apply Hnon in Hin.
    destruct (cell_at hs i); [now elim Hin|]. simpl in Hb. lia. }
  unfold find_tables. rewrite splitlines_to_markdown, find_tables_lines_md by assumption.
  do 3 f_equal. unfold canon. cbn [header rows aligns t]. f_equal.
  apply (canon_aligns_id t). cbn [aligns header t]. apply repeat_length.
Qed.

Lemma clipboard_md_read_back_witness :
  find_tables (_clipboard_copy [lit "id"; lit "name"] [[lit "1"]; [lit "2"; lit "bo"; lit "x"]] fmt_md)
  = [(0, 2 + 2,
      mkTable [lit "id"; lit "name"] (repeat a_left 2)
              (map (canon_row 2) [[lit "1"]; [lit "2"; lit "bo"; lit "x"]]))].
Proof.
  apply (clipboard_md_read_back [lit "id"; lit "name"]
                                [[lit "1"]; [lit "2"; lit "bo"; lit "x"]]).
  - discriminate.
  - repeat constructor; discriminate.
  - vm_compute. reflexivity.
  - vm_compute. reflexivity.
Defined.
